(** * TIFF astronomical metadata reader: a shallow embedding

    The development follows [tiff_astro_reader.py].  The class
    [TIFFAstroReader] keeps one mutable attribute, [is_little_endian]; its
    methods read from an open binary file [f].  Both are threaded through a
    small state-and-exception monad.  Unsigned integers read from the file are
    numbers of type [N]; bytes are [Byte.byte]; the decoded payload text is a
    [string] (it only ever holds printable ASCII). *)

From Stdlib Require Import NArith ZArith List String Ascii Bool Lia.
From Stdlib Require Import Init.Byte Strings.Byte.
Import ListNotations.

Local Open Scope N_scope.

(** ** Bytes and slices *)

(** [l[n:]] for a Python [bytes] object: structural on the list, so that a
    large offset costs nothing. *)
Fixpoint drop (n : N) (l : list byte) : list byte :=
  match l with
  | [] => []
  | b :: t => if n =? 0 then l else drop (N.pred n) t
  end.

(** [l[:n]]. *)
Fixpoint take (n : N) (l : list byte) : list byte :=
  match l with
  | [] => []
  | b :: t => if n =? 0 then [] else b :: take (N.pred n) t
  end.

Definition len (l : list byte) : N := N.of_nat (List.length l).

(** ** The binary file object *)

Record pyfile := mkfile { content : list byte; pos : N }.

(** The reader instance: the file name and the endianness flag. *)
Record TIFFAstroReader := mkreader { filename : string; is_little_endian : bool }.

(** The state a method runs in: [self] and the open file [f]. *)
Record world := mkworld { self : TIFFAstroReader; f : pyfile }.

(** The exceptions the methods can meet: the three the [except] clause
    names, and the two that [json.loads] raises besides [JSONDecodeError]. *)
Inductive exn :=
| IOError
| JSONDecodeError
| struct_error
| RecursionError
| ValueError.

Inductive outcome (A : Type) :=
| Ret (a : A)
| Raise (e : exn).
Arguments Ret {A} a.
Arguments Raise {A} e.

Definition M (A : Type) := world -> outcome A * world.

Definition ret {A} (a : A) : M A := fun w => (Ret a, w).

Definition raise {A} (e : exn) : M A := fun w => (Raise e, w).

Definition bind {A B} (m : M A) (k : A -> M B) : M B :=
  fun w => match m w with
           | (Ret a, w') => k a w'
           | (Raise e, w') => (Raise e, w')
           end.

Notation "x <- m ;; k" := (bind m (fun x => k))
  (at level 61, m at next level, right associativity).
Notation "m ;;; k" := (bind m (fun _ => k))
  (at level 61, right associativity).

(** [f.read(n)]: the bytes from the cursor on, at most [n] of them; the cursor
    moves past what was read. *)
Definition f_read (n : N) : M (list byte) :=
  fun w =>
    let data := take n (drop (pos (f w)) (content (f w))) in
    (Ret data,
     mkworld (self w) (mkfile (content (f w)) (pos (f w) + len data))).

(** [f.seek(offset)]: any offset is accepted, also one past the end. *)
Definition f_seek (offset : N) : M unit :=
  fun w => (Ret tt, mkworld (self w) (mkfile (content (f w)) offset)).

(** [f.tell()]. *)
Definition f_tell : M N := fun w => (Ret (pos (f w)), w).

Definition get_is_little_endian : M bool :=
  fun w => (Ret (is_little_endian (self w)), w).

Definition set_is_little_endian (b : bool) : M unit :=
  fun w => (Ret tt, mkworld (mkreader (filename (self w)) b) (f w)).

(** ** [struct.unpack] for one unsigned integer *)

Definition little_endian_value (data : list byte) : N :=
  fold_right (fun b acc => Byte.to_N b + 256 * acc) 0 data.

Definition big_endian_value (data : list byte) : N :=
  fold_left (fun acc b => 256 * acc + Byte.to_N b) data 0.

(** [struct.unpack(fmt, data)[0]] for the formats ['<H'], ['>H'] (width 2) and
    ['<I'], ['>I'] (width 4): [struct.error] unless [data] has the width of
    the format. *)
Definition struct_unpack (little : bool) (width : N) (data : list byte) : M N :=
  if len data =? width
  then ret (if little then little_endian_value data else big_endian_value data)
  else raise struct_error.

(** ** The reader's methods *)

Definition read_uint16 : M N :=
  data <- f_read 2 ;;
  if negb (len data =? 2) then ret 0
  else little <- get_is_little_endian ;; struct_unpack little 2 data.

Definition read_uint32 : M N :=
  data <- f_read 4 ;;
  if negb (len data =? 4) then ret 0
  else little <- get_is_little_endian ;; struct_unpack little 4 data.

Definition read_data_at_offset (offset count : N) : M (list byte) :=
  current_pos <- f_tell ;;
  f_seek offset ;;;
  data <- f_read count ;;
  f_seek current_pos ;;;
  ret data.

(** The body of the [for _ in range(num_entries)] loop of [scan_ifd_for_exif],
    with the [return] inside it. *)
Fixpoint scan_ifd_loop (num_entries : nat) : M (option N) :=
  match num_entries with
  | O => ret None
  | S remaining =>
      tag <- read_uint16 ;;
      entry_type <- read_uint16 ;;
      count <- read_uint32 ;;
      value_offset <- read_uint32 ;;
      if tag =? 34665 then ret (Some value_offset)
      else scan_ifd_loop remaining
  end.

Definition scan_ifd_for_exif (offset : N) : M (option N) :=
  if offset =? 0 then ret None
  else
    f_seek offset ;;;
    num_entries <- read_uint16 ;;
    if 1000 <? num_entries then ret None
    else scan_ifd_loop (N.to_nat num_entries).

(** [chr(byte)] for a byte. *)
Definition chr (b : byte) : ascii := ascii_of_byte b.

(** The loop [for byte in data] that builds [text]: it ends at a zero byte,
    appends a printable byte and passes over any other. *)
Fixpoint decode_loop (text : string) (data : list byte) : string :=
  match data with
  | [] => text
  | b :: rest =>
      if Byte.to_N b =? 0 then text
      else if (32 <=? Byte.to_N b) && (Byte.to_N b <=? 126)
           then decode_loop (String.append text (String (chr b) EmptyString)) rest
           else decode_loop text rest
  end.

Definition decode_text (data : list byte) : string := decode_loop EmptyString data.

(** [needle in hay] for Python strings. *)
Fixpoint str_in (needle hay : string) : bool :=
  String.prefix needle hay ||
  match hay with
  | EmptyString => false
  | String _ rest => str_in needle rest
  end.

(** ["StackedInfo" in text and "{" in text]. *)
Definition looks_like_origin_json (text : string) : bool :=
  str_in "StackedInfo"%string text && str_in "{"%string text.

Fixpoint scan_exif_loop (num_entries : nat) : M (option string) :=
  match num_entries with
  | O => ret None
  | S remaining =>
      tag <- read_uint16 ;;
      entry_type <- read_uint16 ;;
      count <- read_uint32 ;;
      value_offset <- read_uint32 ;;
      if (tag =? 37500) && (entry_type =? 7) then
        data <- read_data_at_offset value_offset count ;;
        let text := decode_text data in
        if looks_like_origin_json text then ret (Some text)
        else scan_exif_loop remaining
      else scan_exif_loop remaining
  end.

Definition scan_exif_for_origin_data (exif_offset : N) : M (option string) :=
  f_seek exif_offset ;;;
  num_entries <- read_uint16 ;;
  if 100 <? num_entries then ret None
  else scan_exif_loop (N.to_nat num_entries).

(** ** [json.loads]

    The standard library's decoder, as [json.decoder] and [json.scanner]
    define it, on the remaining suffix of the text instead of an index.  A
    Python [str] inside a document is a list of code points ([\uXXXX] escapes
    reach past ASCII); an [int] is a [Z]; a [float] keeps its lexeme; the
    [pairs] of an object are kept in the order read, and [dict(pairs)] is
    looked up through [json_getitem] (a later binding of a key wins).

    The scanner is the C one of CPython ([Modules/_json.c]), which
    [json.scanner] uses when it is there.  Two limits of the interpreter
    decide whether [json.loads] raises something other than
    [JSONDecodeError].  The scanner enters every object and array through
    [Py_EnterRecursiveCall], which raises [RecursionError] when the recursion
    limit is reached; the same check stands in the way of the call that
    builds a [JSONDecodeError] inside the scanner ([raise_errmsg]), so that
    an error met too close to the limit surfaces as [RecursionError] too.
    And [int] raises [ValueError] for a literal of more than 640 digits that
    is also over [sys.get_int_max_str_digits()].  The limits depend on the
    interpreter and on the depth of the call stack when [json.loads] is
    called, so they are parameters of the model.  The Python code of
    [json.loads] around the scanner (its own frames, and the
    [JSONDecodeError] it builds from the scanner's [StopIteration] or for
    trailing text) is taken to have the stack it needs. *)

Record interpreter := mkinterp {
  (** How many objects and arrays may be open at once before
      [Py_EnterRecursiveCall] fails. *)
  nesting_room : nat;
  (** How many more of them would still have to fit for [raise_errmsg] to
      build its [JSONDecodeError]: 3 in CPython 3.11, where the call of the
      exception class runs Python code under the same recursion count. *)
  error_room : nat;
  (** [sys.get_int_max_str_digits()]; [None] when there is no limit (the limit
      is switched off, or the interpreter predates it). *)
  int_max_str_digits : option nat
}.

Definition pystr := list N.

#[warnings="-register-all"]
Inductive json :=
| JNull
| JBool (b : bool)
| JInt (z : Z)
| JFloat (lexeme : string)
| JString (s : pystr)
| JArray (values : list json)
| JObject (pairs : list (pystr * json)).

(** The result of one scanning function: a value and the rest of the text, a
    [JSONDecodeError], recursion fuel used up, or one of the two exceptions
    of the interpreter's limits. *)
Inductive scan (A : Type) :=
| Scanned (a : A) (rest : string)
| DecodeError
| NoFuel
| LimitError (e : exn).
Arguments Scanned {A} a rest.
Arguments DecodeError {A}.
Arguments NoFuel {A}.
Arguments LimitError {A} e.

Definition scan_map {A B} (g : A -> B) (r : scan A) : scan B :=
  match r with
  | Scanned a rest => Scanned (g a) rest
  | DecodeError => DecodeError
  | NoFuel => NoFuel
  | LimitError e => LimitError e
  end.

Definition code (c : ascii) : N := N_of_ascii c.

Definition is_char (n : N) (c : ascii) : bool := code c =? n.

(** [WHITESPACE_STR = ' \t\n\r']. *)
Definition is_ws (c : ascii) : bool :=
  is_char 32 c || is_char 9 c || is_char 10 c || is_char 13 c.

Fixpoint skip_ws (s : string) : string :=
  match s with
  | EmptyString => EmptyString
  | String c rest => if is_ws c then skip_ws rest else s
  end.

Definition is_digit (c : ascii) : bool := (48 <=? code c) && (code c <=? 57).

Definition hex_value (c : ascii) : option N :=
  let n := code c in
  if (48 <=? n) && (n <=? 57) then Some (n - 48)
  else if (97 <=? n) && (n <=? 102) then Some (n - 87)
  else if (65 <=? n) && (n <=? 70) then Some (n - 55)
  else None.

(** [_decode_uXXXX]: four hexadecimal digits. *)
Definition decode_uXXXX (h1 h2 h3 h4 : ascii) : option N :=
  match hex_value h1, hex_value h2, hex_value h3, hex_value h4 with
  | Some a, Some b, Some c, Some d => Some (((a * 16 + b) * 16 + c) * 16 + d)
  | _, _, _, _ => None
  end.

(** The [BACKSLASH] table of the decoder. *)
Definition backslash (esc : ascii) : option N :=
  let n := code esc in
  if n =? 34 then Some 34            (* quote *)
  else if n =? 92 then Some 92       (* backslash *)
  else if n =? 47 then Some 47       (* slash *)
  else if n =? 98 then Some 8        (* backspace *)
  else if n =? 102 then Some 12      (* form feed *)
  else if n =? 110 then Some 10      (* line feed *)
  else if n =? 114 then Some 13      (* carriage return *)
  else if n =? 116 then Some 9       (* tab *)
  else None.

(** [scanstring(s, end, strict=True)], entered after the opening quote. *)
Fixpoint scanstring (s : string) : scan pystr :=
  match s with
  | EmptyString => DecodeError
  | String c r =>
      if is_char 34 c then Scanned [] r
      else if is_char 92 c then
        match r with
        | EmptyString => DecodeError
        | String esc r1 =>
            if is_char 117 esc then
              match r1 with
              | String h1 (String h2 (String h3 (String h4 r2))) =>
                  match decode_uXXXX h1 h2 h3 h4 with
                  | None => DecodeError
                  | Some uni =>
                      if (55296 <=? uni) && (uni <=? 56319) then
                        match r2 with
                        | String b (String u r3) =>
                            if is_char 92 b && is_char 117 u then
                              match r3 with
                              | String g1 (String g2 (String g3 (String g4 r4))) =>
                                  match decode_uXXXX g1 g2 g3 g4 with
                                  | None => DecodeError
                                  | Some uni2 =>
                                      if (56320 <=? uni2) && (uni2 <=? 57343)
                                      then scan_map
                                             (cons (65536 + N.lor (N.shiftl (uni - 55296) 10)
                                                                  (uni2 - 56320)))
                                             (scanstring r4)
                                      else scan_map (cons uni) (scanstring r2)
                                  end
                              | _ => DecodeError
                              end
                            else scan_map (cons uni) (scanstring r2)
                        | _ => scan_map (cons uni) (scanstring r2)
                        end
                      else scan_map (cons uni) (scanstring r2)
                  end
              | _ => DecodeError
              end
            else
              match backslash esc with
              | Some ch => scan_map (cons ch) (scanstring r1)
              | None => DecodeError
              end
        end
      else if code c <? 32 then DecodeError
      else scan_map (cons (code c)) (scanstring r)
  end.

(** [raise_errmsg] of the C scanner, called with [room] left for nesting: the
    [JSONDecodeError] it builds, or the [RecursionError] of building it. *)
Definition raise_errmsg {A} (interp : interpreter) (room : nat) : scan A :=
  if Nat.ltb room (error_room interp) then LimitError RecursionError
  else DecodeError.

(** [scanstring_unicode]: every error of [scanstring] goes through
    [raise_errmsg]. *)
Definition scanstring_unicode (interp : interpreter) (room : nat) (s : string)
  : scan pystr :=
  match scanstring s with
  | DecodeError => raise_errmsg interp room
  | scanned => scanned
  end.

(** The longest run of decimal digits at the front of [s], and what follows. *)
Fixpoint span_digits (s : string) : string * string :=
  match s with
  | EmptyString => (EmptyString, EmptyString)
  | String c rest =>
      if is_digit c
      then let (ds, r) := span_digits rest in (String c ds, r)
      else (EmptyString, s)
  end.

(** [int(digits)] for a run of decimal digits. *)
Fixpoint digits_value (acc : Z) (ds : string) : Z :=
  match ds with
  | EmptyString => acc
  | String c rest => digits_value (10 * acc + Z.of_N (code c - 48))%Z rest
  end.

(** The integer part of [NUMBER_RE]: an optional minus sign, then a single
    zero or a nonzero digit followed by digits. *)
Definition match_integer (s : string) : option (string * string) :=
  let (sign, s1) :=
    match s with
    | String c r => if is_char 45 c then (String c EmptyString, r) else (EmptyString, s)
    | EmptyString => (EmptyString, s)
    end in
  match s1 with
  | EmptyString => None
  | String d r =>
      if is_char 48 d then Some (String.append sign (String d EmptyString), r)
      else if is_digit d
           then let (ds, r') := span_digits r in
                Some (String.append sign (String d ds), r')
           else None
  end.

(** The optional fraction of [NUMBER_RE]: a dot and at least one digit. *)
Definition match_frac (s : string) : string * string :=
  match s with
  | String c r =>
      if is_char 46 c
      then match span_digits r with
           | (EmptyString, _) => (EmptyString, s)
           | (ds, r') => (String c ds, r')
           end
      else (EmptyString, s)
  | EmptyString => (EmptyString, s)
  end.

(** The optional exponent of [NUMBER_RE]: e or E, an optional sign and at
    least one digit. *)
Definition match_exp (s : string) : string * string :=
  match s with
  | String c r =>
      if is_char 101 c || is_char 69 c
      then let (sign, r1) :=
             match r with
             | String g r0 =>
                 if is_char 45 g || is_char 43 g then (String g EmptyString, r0)
                 else (EmptyString, r)
             | EmptyString => (EmptyString, r)
             end in
           match span_digits r1 with
           | (EmptyString, _) => (EmptyString, s)
           | (ds, r') => (String c (String.append sign ds), r')
           end
      else (EmptyString, s)
  | EmptyString => (EmptyString, s)
  end.

(** [int(integer)] for a matched integer part. *)
Definition int_of_lexeme (integer : string) : Z :=
  match integer with
  | String c r => if is_char 45 c then (- digits_value 0 r)%Z
                  else digits_value 0 integer
  | EmptyString => 0%Z
  end.

(** [match_number]: an [int] when neither fraction nor exponent matched, a
    [float] of [integer + frac + exp] otherwise. *)
Definition match_number (s : string) : option (json * string) :=
  match match_integer s with
  | None => None
  | Some (integer, r) =>
      let (frac, r1) := match_frac r in
      let (exp, r2) := match_exp r1 in
      match frac, exp with
      | EmptyString, EmptyString => Some (JInt (int_of_lexeme integer), r2)
      | _, _ => Some (JFloat (String.append integer (String.append frac exp)), r2)
      end
  end.

(** [s[len(p):]] when [s] starts with [p]. *)
Fixpoint strip_prefix (p s : string) : option string :=
  match p with
  | EmptyString => Some s
  | String a p' =>
      match s with
      | EmptyString => None
      | String b s' => if Ascii.eqb a b then strip_prefix p' s' else None
      end
  end.

(** The number of digits of a matched integer part, the sign not counted. *)
Definition digit_count (integer : string) : nat :=
  match integer with
  | String c r => if is_char 45 c then String.length r else String.length integer
  | EmptyString => O
  end.

(** [int(integer)] raises [ValueError]: the literal has more than 640 digits
    and more than the limit, when a limit is set. *)
Definition over_int_limit (interp : interpreter) (integer : string) : bool :=
  Nat.ltb 640 (digit_count integer)
  && match int_max_str_digits interp with
     | Some limit => Nat.ltb 0 limit && Nat.ltb limit (digit_count integer)
     | None => false
     end.

(** The number at the front of [s] is an integer literal that [int] refuses. *)
Definition int_refused (interp : interpreter) (s : string) : bool :=
  match match_integer s with
  | Some (integer, _) => over_int_limit interp integer
  | None => false
  end.

(** The constants of [scan_once] after the three bracketed forms and before
    and after the number. *)
Definition scan_constant (interp : interpreter) (s : string) : scan json :=
  match strip_prefix "null" s with
  | Some r => Scanned JNull r
  | None =>
  match strip_prefix "true" s with
  | Some r => Scanned (JBool true) r
  | None =>
  match strip_prefix "false" s with
  | Some r => Scanned (JBool false) r
  | None =>
  match match_number s with
  | Some (JInt z, r) =>
      if int_refused interp s then LimitError ValueError else Scanned (JInt z) r
  | Some (v, r) => Scanned v r
  | None =>
  match strip_prefix "NaN" s with
  | Some r => Scanned (JFloat "NaN") r
  | None =>
  match strip_prefix "Infinity" s with
  | Some r => Scanned (JFloat "Infinity") r
  | None =>
  match strip_prefix "-Infinity" s with
  | Some r => Scanned (JFloat "-Infinity") r
  | None => DecodeError
  end end end end end end end.

(** [scan_once], [JSONObject] (from the first key on) and [JSONArray] (from
    the first value on).  Every nested call spends one unit of fuel.  An
    object or an array is entered only while [room] is left, and its values
    are scanned with one less; with none left the scanner raises
    [RecursionError] before it looks at what the bracket holds.  Where the C
    scanner reports a missing value it raises [StopIteration], which
    [raw_decode] turns into [JSONDecodeError] outside the scanner
    ([DecodeError] here); every other error is built by [raise_errmsg] where
    it is met. *)
Fixpoint scan_once (interp : interpreter) (room fuel : nat) (s : string) : scan json :=
  match fuel with
  | O => NoFuel
  | S k =>
      match s with
      | EmptyString => DecodeError
      | String c r =>
          if is_char 34 c then scan_map JString (scanstring_unicode interp room r)
          else if is_char 123 c then
            match room with
            | O => LimitError RecursionError
            | S inner =>
                match skip_ws r with
                | String q r1 =>
                    if is_char 125 q then Scanned (JObject []) r1
                    else if is_char 34 q then JSONObject interp inner k [] r1
                    else raise_errmsg interp inner
                | EmptyString => raise_errmsg interp inner
                end
            end
          else if is_char 91 c then
            match room with
            | O => LimitError RecursionError
            | S inner =>
                match skip_ws r with
                | String q r1 =>
                    if is_char 93 q then Scanned (JArray []) r1
                    else JSONArray interp inner k [] (String q r1)
                | EmptyString => DecodeError
                end
            end
          else scan_constant interp s
      end
  end

with JSONObject (interp : interpreter) (room fuel : nat)
                (pairs : list (pystr * json)) (s : string) : scan json :=
  match fuel with
  | O => NoFuel
  | S k =>
      match scanstring_unicode interp room s with
      | Scanned key r =>
          match skip_ws r with
          | String colon r1 =>
              if is_char 58 colon then
                match scan_once interp room k (skip_ws r1) with
                | Scanned value r2 =>
                    match skip_ws r2 with
                    | String nextchar r3 =>
                        if is_char 125 nextchar
                        then Scanned (JObject (pairs ++ [(key, value)])) r3
                        else if is_char 44 nextchar then
                          match skip_ws r3 with
                          | String q r4 =>
                              if is_char 34 q
                              then JSONObject interp room k (pairs ++ [(key, value)]) r4
                              else raise_errmsg interp room
                          | EmptyString => raise_errmsg interp room
                          end
                        else raise_errmsg interp room
                    | EmptyString => raise_errmsg interp room
                    end
                | DecodeError => DecodeError
                | NoFuel => NoFuel
                | LimitError e => LimitError e
                end
              else raise_errmsg interp room
          | EmptyString => raise_errmsg interp room
          end
      | DecodeError => DecodeError
      | NoFuel => NoFuel
      | LimitError e => LimitError e
      end
  end

with JSONArray (interp : interpreter) (room fuel : nat)
               (values : list json) (s : string) : scan json :=
  match fuel with
  | O => NoFuel
  | S k =>
      match scan_once interp room k s with
      | Scanned value r =>
          match skip_ws r with
          | String nextchar r1 =>
              if is_char 93 nextchar then Scanned (JArray (values ++ [value])) r1
              else if is_char 44 nextchar
                   then JSONArray interp room k (values ++ [value]) (skip_ws r1)
                   else raise_errmsg interp room
          | EmptyString => raise_errmsg interp room
          end
      | DecodeError => DecodeError
      | NoFuel => NoFuel
      | LimitError e => LimitError e
      end
  end.

(** [JSONDecoder.decode]: leading white space, one value, trailing white
    space, nothing more.  The fuel is more than the scanners can spend on a
    text of this length ([decode_fuel] below). *)
Definition decode (interp : interpreter) (s : string) : scan json :=
  match scan_once interp (nesting_room interp) (S (2 * String.length s)) (skip_ws s) with
  | Scanned obj r =>
      match skip_ws r with
      | EmptyString => Scanned obj EmptyString
      | String _ _ => DecodeError
      end
  | DecodeError => DecodeError
  | NoFuel => NoFuel
  | LimitError e => LimitError e
  end.

(** What [json.loads(s)] does: return the document, or raise. *)
Definition loads_outcome (interp : interpreter) (s : string) : outcome json :=
  match decode interp s with
  | Scanned obj _ => Ret obj
  | DecodeError => Raise JSONDecodeError
  | NoFuel => Raise JSONDecodeError
  | LimitError e => Raise e
  end.

Definition json_loads (interp : interpreter) (s : string) : M json :=
  fun w => (loads_outcome interp s, w).

(** The code points of an ASCII literal. *)
Fixpoint pystr_of (s : string) : pystr :=
  match s with
  | EmptyString => []
  | String c r => code c :: pystr_of r
  end.

Fixpoint pystr_eqb (a b : pystr) : bool :=
  match a, b with
  | [], [] => true
  | x :: a', y :: b' => (x =? y) && pystr_eqb a' b'
  | _, _ => false
  end.

(** [dict(pairs)[key]]: the last binding of [key]. *)
Fixpoint dict_get (pairs : list (pystr * json)) (key : pystr) : option json :=
  match pairs with
  | [] => None
  | (k, v) :: rest =>
      match dict_get rest key with
      | Some v' => Some v'
      | None => if pystr_eqb k key then Some v else None
      end
  end.

(** [document[key]] for a parsed document; [None] where Python raises. *)
Definition json_getitem (document : json) (key : string) : option json :=
  match document with
  | JObject pairs => dict_get pairs (pystr_of key)
  | _ => None
  end.

(** ** The top-level extraction *)

Fixpoint bytes_eqb (a b : list byte) : bool :=
  match a, b with
  | [], [] => true
  | x :: a', y :: b' => Byte.eqb x y && bytes_eqb a' b'
  | _, _ => false
  end.

(** [b'II'] and [b'MM']. *)
Definition b_II : list byte := [x49; x49].
Definition b_MM : list byte := [x4d; x4d].

(** The statements of [extract_astronomical_metadata] after the byte order
    has been stored. *)
Definition after_byte_order (interp : interpreter) : M (option json) :=
  magic <- read_uint16 ;;
  if negb (magic =? 42) then ret None
  else
    first_ifd_offset <- read_uint32 ;;
    exif_offset <- scan_ifd_for_exif first_ifd_offset ;;
    match exif_offset with
    | None => ret None
    | Some exif_offset =>
        if exif_offset =? 0 then ret None          (* [not exif_offset] *)
        else
          json_text <- scan_exif_for_origin_data exif_offset ;;
          match json_text with
          | None => ret None
          | Some EmptyString => ret None           (* [not json_text] *)
          | Some json_text =>
              document <- json_loads interp json_text ;; ret (Some document)
          end
    end.

(** The body of the [with open(self.filename, 'rb') as f] block. *)
Definition with_open_body (interp : interpreter) : M (option json) :=
  byte_order <- f_read 2 ;;
  if bytes_eqb byte_order b_II
  then set_is_little_endian true ;;; after_byte_order interp
  else if bytes_eqb byte_order b_MM
       then set_is_little_endian false ;;; after_byte_order interp
       else ret None.

(** The files that can be opened for reading, by name; [None] where [open]
    raises [IOError]. *)
Definition filesystem := string -> option (list byte).

(** The [try] block: [open], then the body on a fresh file object. *)
Definition try_block (interp : interpreter) (fs : filesystem)
           (reader : TIFFAstroReader) : outcome (option json) * world :=
  match fs (filename reader) with
  | None => (Raise IOError, mkworld reader (mkfile [] 0))
  | Some bytes => with_open_body interp (mkworld reader (mkfile bytes 0))
  end.

(** [except (IOError, json.JSONDecodeError, struct.error): return None].  An
    exception of another class passes through. *)
Definition handler (e : exn) : outcome (option json) :=
  match e with
  | IOError => Ret None
  | JSONDecodeError => Ret None
  | struct_error => Ret None
  | RecursionError => Raise RecursionError
  | ValueError => Raise ValueError
  end.

(** The method returns a value or raises, and leaves the reader with the
    endianness flag it last stored. *)
Definition extract_astronomical_metadata (interp : interpreter) (fs : filesystem)
           (reader : TIFFAstroReader) : outcome (option json) * TIFFAstroReader :=
  match try_block interp fs reader with
  | (Ret result, w) => (Ret result, self w)
  | (Raise e, w) => (handler e, self w)
  end.

(** ** Synthetic TIFF files

    A logical directory structure: the entries of the root IFD, the entries
    of the EXIF IFD and the bytes of the data area that out-of-line values
    live in.  [encode] lays it out as header, root IFD at offset 8, EXIF IFD
    right behind it, data area last, with every two- and four-byte field in
    the chosen byte order. *)

Record DirectoryEntry := mkentry {
  tag : N;
  field_type : N;
  count : N;
  value_or_offset : N
}.

Record LogicalTiff := mktiff {
  root_ifd : list DirectoryEntry;
  exif_ifd : list DirectoryEntry;
  data_area : list byte
}.

Definition byte_of_N (n : N) : byte :=
  match Byte.of_N (n mod 256) with
  | Some b => b
  | None => x00
  end.

(** The [width] low bytes of [v], least significant first. *)
Fixpoint low_bytes (width : nat) (v : N) : list byte :=
  match width with
  | O => []
  | S w => byte_of_N v :: low_bytes w (v / 256)
  end.

(** [struct.pack] for one unsigned integer. *)
Definition pack (little : bool) (width : nat) (v : N) : list byte :=
  if little then low_bytes width v else rev (low_bytes width v).

Definition encode_entry (little : bool) (e : DirectoryEntry) : list byte :=
  pack little 2 (tag e) ++ pack little 2 (field_type e)
  ++ pack little 4 (count e) ++ pack little 4 (value_or_offset e).

Definition encode_ifd (little : bool) (entries : list DirectoryEntry) : list byte :=
  pack little 2 (N.of_nat (List.length entries))
  ++ flat_map (encode_entry little) entries.

Definition exif_offset_of (t : LogicalTiff) : N :=
  10 + 12 * N.of_nat (List.length (root_ifd t)).

Definition data_offset_of (t : LogicalTiff) : N :=
  exif_offset_of t + 2 + 12 * N.of_nat (List.length (exif_ifd t)).

Definition encode (little : bool) (t : LogicalTiff) : list byte :=
  (if little then b_II else b_MM) ++ pack little 2 42 ++ pack little 4 8
  ++ encode_ifd little (root_ifd t)
  ++ encode_ifd little (exif_ifd t)
  ++ data_area t.

(** ** The file as the reader sees it

    Pure readings of the file content at a cursor position: what
    [read_uint16] and [read_uint32] return there and where they leave the
    cursor, the directory entries the two scanning loops read one after the
    other, and the payload bytes of an entry. *)

(** [content[offset : offset + count]]. *)
Definition slice (bytes : list byte) (offset count : N) : list byte :=
  take count (drop offset bytes).

Definition uint_value (little : bool) (width : N) (data : list byte) : N :=
  if len data =? width
  then (if little then little_endian_value data else big_endian_value data)
  else 0.

Definition uint_at (little : bool) (width : N) (bytes : list byte) (p : N) : N :=
  uint_value little width (slice bytes p width).

Definition after_read (width : N) (bytes : list byte) (p : N) : N :=
  p + len (slice bytes p width).

Definition entry_at (little : bool) (bytes : list byte) (p : N)
  : DirectoryEntry * N :=
  let p1 := after_read 2 bytes p in
  let p2 := after_read 2 bytes p1 in
  let p3 := after_read 4 bytes p2 in
  (mkentry (uint_at little 2 bytes p) (uint_at little 2 bytes p1)
           (uint_at little 4 bytes p2) (uint_at little 4 bytes p3),
   after_read 4 bytes p3).

Fixpoint entries_at (little : bool) (bytes : list byte) (p : N) (n : nat)
  : list DirectoryEntry :=
  match n with
  | O => []
  | S k => let (e, p') := entry_at little bytes p in
           e :: entries_at little bytes p' k
  end.

Definition entry_count (little : bool) (bytes : list byte) (offset : N) : N :=
  uint_at little 2 bytes offset.

(** The directory at [offset]: as many entries as its count field says. *)
Definition directory_at (little : bool) (bytes : list byte) (offset : N)
  : list DirectoryEntry :=
  entries_at little bytes (after_read 2 bytes offset)
             (N.to_nat (entry_count little bytes offset)).

(** The first entry, in directory order, with the target tag and, when one is
    required, the field type. *)
Definition locate (target : N) (required_type : option N)
           (directory : list DirectoryEntry) : option DirectoryEntry :=
  find (fun e => (tag e =? target) &&
                 match required_type with
                 | None => true
                 | Some t => field_type e =? t
                 end) directory.

Definition payload_of (bytes : list byte) (e : DirectoryEntry) : list byte :=
  slice bytes (value_or_offset e) (count e).

(** What one entry contributes to [scan_exif_for_origin_data]: the decoded
    payload of a tag-37500 entry of type 7 when it passes the content test. *)
Definition origin_text (bytes : list byte) (e : DirectoryEntry) : option string :=
  if (tag e =? 37500) && (field_type e =? 7) then
    let text := decode_text (payload_of bytes e) in
    if looks_like_origin_json text then Some text else None
  else None.

Fixpoint first_some {A B} (g : A -> option B) (l : list A) : option B :=
  match l with
  | [] => None
  | a :: rest => match g a with
                 | Some b => Some b
                 | None => first_some g rest
                 end
  end.

Definition byte_order_of (bytes : list byte) : option bool :=
  if bytes_eqb (slice bytes 0 2) b_II then Some true
  else if bytes_eqb (slice bytes 0 2) b_MM then Some false
  else None.

(** Byte order and first IFD offset of a file whose header is valid. *)
Definition header_of (bytes : list byte) : option (bool * N) :=
  match byte_order_of bytes with
  | None => None
  | Some little =>
      if uint_at little 2 bytes 2 =? 42
      then Some (little, uint_at little 4 bytes (after_read 2 bytes 2))
      else None
  end.

Definition exif_pointer (little : bool) (bytes : list byte) (first_ifd_offset : N)
  : option N :=
  if first_ifd_offset =? 0 then None
  else if 1000 <? entry_count little bytes first_ifd_offset then None
  else option_map value_or_offset
                  (locate 34665 None (directory_at little bytes first_ifd_offset)).

Definition origin_json_text (little : bool) (bytes : list byte) (exif_offset : N)
  : option string :=
  if 100 <? entry_count little bytes exif_offset then None
  else first_some (origin_text bytes) (directory_at little bytes exif_offset).

(** What the [try] block makes of [json.loads(text)]: it returns the
    document, or the exception goes on to the [except] clause. *)
Definition returned_document (o : outcome json) : outcome (option json) :=
  match o with
  | Ret document => Ret (Some document)
  | Raise e => Raise e
  end.

(** An outcome of the [try] block after the [except] clause. *)
Definition handled (o : outcome (option json)) : outcome (option json) :=
  match o with
  | Ret result => Ret result
  | Raise e => handler e
  end.

(** What the method makes of [json.loads(text)]: the document, [None] for a
    [JSONDecodeError], and a [RecursionError] or [ValueError] that escapes. *)
Definition loads_returned (interp : interpreter) (text : string)
  : outcome (option json) :=
  handled (returned_document (loads_outcome interp text)).

(** The outcome of the [try] block once the header has been read. *)
Definition block_after_header (interp : interpreter) (little : bool)
           (bytes : list byte) (first_ifd_offset : N) : outcome (option json) :=
  match exif_pointer little bytes first_ifd_offset with
  | None => Ret None
  | Some exif_offset =>
      if exif_offset =? 0 then Ret None
      else match origin_json_text little bytes exif_offset with
           | None => Ret None
           | Some EmptyString => Ret None
           | Some text => returned_document (loads_outcome interp text)
           end
  end.

(** The outcome of the [try] block for a file holding [bytes]
    ([with_open_body_run] below). *)
Definition block_result (interp : interpreter) (bytes : list byte)
  : outcome (option json) :=
  match header_of bytes with
  | None => Ret None
  | Some (little, first_ifd_offset) =>
      block_after_header interp little bytes first_ifd_offset
  end.

(** What the method does once the header has been read. *)
Definition after_header (interp : interpreter) (little : bool)
           (bytes : list byte) (first_ifd_offset : N) : outcome (option json) :=
  match exif_pointer little bytes first_ifd_offset with
  | None => Ret None
  | Some exif_offset =>
      if exif_offset =? 0 then Ret None
      else match origin_json_text little bytes exif_offset with
           | None => Ret None
           | Some text => loads_returned interp text
           end
  end.

(** What [extract_astronomical_metadata] does for a file holding [bytes]
    ([extract_astronomical_metadata_eq] below). *)
Definition extraction_result (interp : interpreter) (bytes : list byte)
  : outcome (option json) :=
  match header_of bytes with
  | None => Ret None
  | Some (little, first_ifd_offset) =>
      after_header interp little bytes first_ifd_offset
  end.

(** ** Readings of the specification that the code is compared with *)

Definition printable (b : byte) : bool :=
  (32 <=? Byte.to_N b) && (Byte.to_N b <=? 126).

(** Decoding that copies printable bytes and stops at the first byte that is
    zero or otherwise outside the printable range. *)
Fixpoint decode_until_unprintable (data : list byte) : string :=
  match data with
  | [] => EmptyString
  | b :: rest => if printable b then String (chr b) (decode_until_unprintable rest)
                 else EmptyString
  end.

(** The bytes before the first zero byte. *)
Fixpoint until_zero (data : list byte) : list byte :=
  match data with
  | [] => []
  | b :: rest => if Byte.to_N b =? 0 then [] else b :: until_zero rest
  end.

(** Payload extraction that looks at the first tag-37500 type-7 entry only. *)
Definition first_match_text (bytes : list byte) (directory : list DirectoryEntry)
  : option string :=
  match locate 37500 (Some 7) directory with
  | Some e => origin_text bytes e
  | None => None
  end.

(** The method reports an error the caller can tell from the result [None]:
    in Python, an exception reaches the caller. *)
Definition reports_error (o : outcome (option json)) : Prop :=
  exists e, o = Raise e.

Fixpoint distinct (l : list N) : bool :=
  match l with
  | [] => true
  | x :: rest => negb (existsb (N.eqb x) rest) && distinct rest
  end.

(** A well-formed TIFF directory lists every tag at most once. *)
Definition unique_tags (directory : list DirectoryEntry) : bool :=
  distinct (map tag directory).

(** Every field fits its width. *)
Definition entry_in_range (e : DirectoryEntry) : bool :=
  (tag e <? 65536) && (field_type e <? 65536)
  && (count e <? 4294967296) && (value_or_offset e <? 4294967296).

(** A logical structure whose pointers mean what they say: the EXIF pointer
    of the root IFD is the offset of the EXIF IFD, and the value of an
    application-data entry lies in the data area. *)
Definition well_formed (t : LogicalTiff) : bool :=
  (N.of_nat (List.length (root_ifd t)) <? 65536)
  && (N.of_nat (List.length (exif_ifd t)) <? 65536)
  && forallb entry_in_range (root_ifd t)
  && forallb entry_in_range (exif_ifd t)
  && forallb (fun e => negb (tag e =? 34665)
                       || (value_or_offset e =? exif_offset_of t)) (root_ifd t)
  && forallb (fun e => negb ((tag e =? 37500) && (field_type e =? 7))
                       || (data_offset_of t <=? value_or_offset e)) (exif_ifd t).

Definition is_application_data (e : DirectoryEntry) : bool :=
  (tag e =? 37500) && (field_type e =? 7).

(** What the extraction finds in a well-formed logical structure, read off
    the structure itself ([encode_result] below). *)
Definition logical_text (t : LogicalTiff) (e : DirectoryEntry) : option string :=
  if is_application_data e then
    let text := decode_text (slice (data_area t)
                                   (value_or_offset e - data_offset_of t) (count e)) in
    if looks_like_origin_json text then Some text else None
  else None.

Definition logical_result (interp : interpreter) (t : LogicalTiff)
  : outcome (option json) :=
  if 1000 <? N.of_nat (List.length (root_ifd t)) then Ret None
  else match locate 34665 None (root_ifd t) with
       | None => Ret None
       | Some _ =>
           if 100 <? N.of_nat (List.length (exif_ifd t)) then Ret None
           else match first_some (logical_text t) (exif_ifd t) with
                | None => Ret None
                | Some text => loads_returned interp text
                end
       end.

(** ** Concrete files *)

Definition ascii_bytes (s : string) : list byte := list_byte_of_string s.

Definition quote : list byte := [x22].

(** [b'{"StackedInfo":{"objectName":"M42"}}\x00']. *)
Definition m42_payload : list byte :=
  ascii_bytes "{" ++ quote ++ ascii_bytes "StackedInfo" ++ quote
  ++ ascii_bytes ":{" ++ quote ++ ascii_bytes "objectName" ++ quote
  ++ ascii_bytes ":" ++ quote ++ ascii_bytes "M42" ++ quote
  ++ ascii_bytes "}}" ++ [x00].

(** A root IFD with an image-width entry and the EXIF pointer, an EXIF IFD
    with the application-data entry, and the payload. *)
Definition m42_tiff : LogicalTiff :=
  mktiff [mkentry 256 3 1 100; mkentry 34665 4 1 34]
         [mkentry 37500 7 37 48]
         m42_payload.


(** A little-endian header and a root IFD that announces 1001 entries. *)
Definition oversized_root_file : list byte :=
  b_II ++ pack true 2 42 ++ pack true 4 8 ++ pack true 2 1001.

(** A root IFD with the EXIF pointer, and an EXIF IFD that announces 101
    entries. *)
Definition oversized_exif_file : list byte :=
  b_II ++ pack true 2 42 ++ pack true 4 8
  ++ encode_ifd true [mkentry 34665 4 1 22] ++ pack true 2 101.

(** Two application-data entries: the payload of the first does not look like
    Origin JSON, the payload of the second is the M42 document. *)
Definition two_payload_tiff : LogicalTiff :=
  mktiff [mkentry 34665 4 1 22]
         [mkentry 37500 7 4 48; mkentry 37500 7 37 52]
         (ascii_bytes "junk" ++ m42_payload).

(** The application-data entry has field type 2 (ASCII), not 7. *)
Definition wrong_type_tiff : LogicalTiff :=
  mktiff [mkentry 34665 4 1 22]
         [mkentry 37500 2 37 36]
         m42_payload.

(** The payload is a JSON array: [b'["StackedInfo{"]']. *)
Definition array_payload_tiff : LogicalTiff :=
  mktiff [mkentry 34665 4 1 22]
         [mkentry 37500 7 16 36]
         (ascii_bytes "[" ++ quote ++ ascii_bytes "StackedInfo{" ++ quote
          ++ ascii_bytes "]").

(** A structure that is not well formed: the value of the application-data
    entry starts one byte before the data area, on the last byte of the
    second entry's value field. *)
Definition overlapping_tiff : LogicalTiff :=
  mktiff [mkentry 34665 4 1 22]
         [mkentry 37500 7 38 47; mkentry 36864 7 4 536870961]
         m42_payload.

(** Byte order mark and magic number, and nothing more. *)
Definition four_byte_file : list byte := b_II ++ pack true 2 42.

Definition any_reader : TIFFAstroReader := mkreader "image.tif" true.

(** CPython 3.11 with its default limits, where the method is called as
    [main] calls it, through [display_astronomical_info]:
    [sys.getrecursionlimit()] is 1000, of which the frames in use when the
    scanner starts leave room for 992 nested objects and arrays (one more for
    every frame less on the call stack); [sys.get_int_max_str_digits()] is
    4300. *)
Definition cpython : interpreter := mkinterp 992 3 (Some 4300%nat).

(** An array nested 1000 deep around the text [StackedInfo{], never closed. *)
Definition deep_payload : list byte :=
  repeat x5b 1000 ++ quote ++ ascii_bytes "StackedInfo{" ++ quote.

Definition deep_tiff : LogicalTiff :=
  mktiff [mkentry 34665 4 1 22]
         [mkentry 37500 7 1014 36]
         deep_payload.

(** A document whose [StackedInfo] is an integer of 4301 digits. *)
Definition long_int_payload : list byte :=
  ascii_bytes "{" ++ quote ++ ascii_bytes "StackedInfo" ++ quote ++ ascii_bytes ":"
  ++ repeat x31 4301 ++ ascii_bytes "}".

Definition long_int_tiff : LogicalTiff :=
  mktiff [mkentry 34665 4 1 22]
         [mkentry 37500 7 4317 36]
         long_int_payload.

Definition holding (bytes : list byte) : filesystem := fun _ => Some bytes.

(** A tag-37500 entry of type 7 whose decoded payload passes the content
    test. *)
Definition usable (bytes : list byte) (e : DirectoryEntry) : bool :=
  (tag e =? 37500) && (field_type e =? 7)
  && looks_like_origin_json (decode_text (payload_of bytes e)).

Definition text_of (bytes : list byte) (e : DirectoryEntry) : string :=
  decode_text (payload_of bytes e).

Definition open_at_start (bytes : list byte) : world :=
  mkworld any_reader (mkfile bytes 0).

(** A scanner had fuel enough and, where it produced a value, left a text
    shorter than [s]. *)
Definition consumes {A} (s : string) (x : scan A) : Prop :=
  match x with
  | Scanned _ rest => (String.length rest < String.length s)%nat
  | DecodeError => True
  | NoFuel => False
  | LimitError _ => True
  end.

(** A root IFD with the image width and height and no EXIF pointer. *)
Definition no_exif_tiff : LogicalTiff :=
  mktiff [mkentry 256 3 1 640; mkentry 257 3 1 480] [] [].

(** The application-data entry holds bytes that do not look like Origin
    JSON. *)
Definition junk_payload_tiff : LogicalTiff :=
  mktiff [mkentry 34665 4 1 22]
         [mkentry 37500 7 4 36]
         (ascii_bytes "junk").

(** A valid header whose first IFD offset is 0. *)
Definition null_first_ifd_file : list byte :=
  b_MM ++ pack false 2 42 ++ pack false 4 0.

(** A root IFD whose EXIF pointer is 0. *)
Definition null_exif_pointer_tiff : LogicalTiff :=
  mktiff [mkentry 34665 4 1 0] [] [].

(** The first bytes of a ZIP archive. *)
Definition not_a_tiff_file : list byte := [x50; x4b; x03; x04; x14; x00].

(** No file can be opened. *)
Definition nothing_readable : filesystem := fun _ => None.

(** Every character of [s] satisfies [p]. *)
Fixpoint all_chars (p : ascii -> bool) (s : string) : bool :=
  match s with
  | EmptyString => true
  | String c rest => p c && all_chars p rest
  end.

Definition printable_char (c : ascii) : bool :=
  (32 <=? code c) && (code c <=? 126).

(** [chr(n) in s]. *)
Fixpoint has_char (n : N) (s : string) : bool :=
  match s with
  | EmptyString => false
  | String c rest => (code c =? n) || has_char n rest
  end.

(** The documents Python counts as true among those that hold text: a
    non-empty [str], [list] or [dict]. *)
Definition nonempty_container (document : json) : bool :=
  match document with
  | JString (_ :: _) => true
  | JArray (_ :: _) => true
  | JObject (_ :: _) => true
  | _ => false
  end.

(** ** [parse_arguments] of [scanapi.py]

    The argument text of an API call is a Python [str], a list of code
    points.  [str.strip()] removes the characters Python counts as white
    space from both ends. *)

(** [chr(n).isspace()]. *)
Definition is_space (n : N) : bool :=
  ((9 <=? n) && (n <=? 13)) || ((28 <=? n) && (n <=? 32))
  || (n =? 133) || (n =? 160) || (n =? 5760)
  || ((8192 <=? n) && (n <=? 8202))
  || (n =? 8232) || (n =? 8233) || (n =? 8239) || (n =? 8287) || (n =? 12288).

Fixpoint lstrip (s : pystr) : pystr :=
  match s with
  | [] => []
  | c :: rest => if is_space c then lstrip rest else s
  end.

Definition rstrip (s : pystr) : pystr := rev (lstrip (rev s)).

Definition strip (s : pystr) : pystr := rstrip (lstrip s).

(** The loop [for char in args_str] with its three variables, and the
    statements after it. *)
Fixpoint parse_arguments_loop (args : list pystr) (current_arg : pystr)
         (paren_depth : Z) (chars : pystr) : list pystr :=
  match chars with
  | [] =>
      match current_arg with
      | [] => args
      | _ :: _ => args ++ [strip current_arg]
      end
  | char :: rest =>
      if (char =? 44) && (paren_depth =? 0)%Z
      then parse_arguments_loop (args ++ [strip current_arg]) [] paren_depth rest
      else
        let paren_depth' :=
          if char =? 40 then (paren_depth + 1)%Z
          else if char =? 41 then Z.max 0 (paren_depth - 1)
               else paren_depth in
        parse_arguments_loop args (current_arg ++ [char]) paren_depth' rest
  end.

Definition parse_arguments (args_str : pystr) : list pystr :=
  match args_str with
  | [] => []
  | _ :: _ => parse_arguments_loop [] [] 0%Z args_str
  end.

(** [",".join(args)]. *)
Fixpoint join_commas (args : list pystr) : pystr :=
  match args with
  | [] => []
  | [a] => a
  | a :: rest => a ++ 44 :: join_commas rest
  end.

(** A header whose first IFD offset points past the end of the file. *)
Definition dangling_ifd_file : list byte :=
  b_II ++ pack true 2 42 ++ pack true 4 4096.

(** An application-data entry whose value lies past the end of the file. *)
Definition dangling_payload_tiff : LogicalTiff :=
  mktiff [mkentry 34665 4 1 22]
         [mkentry 37500 7 37 4096]
         m42_payload.

(** The world [w] with the cursor of its file at [p]. *)
Definition at_pos (w : world) (p : N) : world :=
  mkworld (self w) (mkfile (content (f w)) p).

Definition little_of (w : world) : bool := is_little_endian (self w).
Definition bytes_of (w : world) : list byte := content (f w).
Definition cursor (w : world) : N := pos (f w).

(** * Properties *)

(** ** Slices *)

Lemma drop_skipn (n : N) (l : list byte) : drop n l = skipn (N.to_nat n) l.
Proof.
  revert n; induction l as [|b t IH]; intros n; simpl.
  - now rewrite skipn_nil.
  - destruct (N.eqb_spec n 0) as [->|Hn]; [reflexivity|].
    rewrite IH. replace (N.to_nat n) with (S (N.to_nat (N.pred n))) by lia.
    reflexivity.
Qed.

Lemma take_firstn (n : N) (l : list byte) : take n l = firstn (N.to_nat n) l.
Proof.
  revert n; induction l as [|b t IH]; intros n; simpl.
  - now rewrite firstn_nil.
  - destruct (N.eqb_spec n 0) as [->|Hn]; [reflexivity|].
    rewrite IH. replace (N.to_nat n) with (S (N.to_nat (N.pred n))) by lia.
    reflexivity.
Qed.

Lemma len_app (a b : list byte) : len (a ++ b) = len a + len b.
Proof. unfold len. rewrite length_app. lia. Qed.

Lemma len_slice (bytes : list byte) (p n : N) :
  len (slice bytes p n) = N.min n (len bytes - p).
Proof.
  unfold slice, len. rewrite take_firstn, drop_skipn, length_firstn, length_skipn.
  lia.
Qed.

Lemma drop_app (pre rest : list byte) (k : N) :
  drop (len pre + k) (pre ++ rest) = drop k rest.
Proof.
  rewrite !drop_skipn. unfold len.
  replace (N.to_nat (N.of_nat (List.length pre) + k))
    with (List.length pre + N.to_nat k)%nat by lia.
  rewrite skipn_app, skipn_all2 by lia.
  replace (List.length pre + N.to_nat k - List.length pre)%nat
    with (N.to_nat k) by lia.
  reflexivity.
Qed.

Lemma drop_0 (l : list byte) : drop 0 l = l.
Proof. destruct l; reflexivity. Qed.

Lemma take_app (a b : list byte) : take (len a) (a ++ b) = a.
Proof.
  rewrite take_firstn. unfold len. rewrite Nat2N.id.
  rewrite firstn_app, firstn_all, Nat.sub_diag. simpl. apply app_nil_r.
Qed.

Lemma slice_app (pre a rest : list byte) :
  slice (pre ++ a ++ rest) (len pre) (len a) = a.
Proof.
  unfold slice. rewrite <- (N.add_0_r (len pre)), drop_app, drop_0.
  apply take_app.
Qed.

Lemma slice_past (pre rest : list byte) (k n : N) :
  slice (pre ++ rest) (len pre + k) n = slice rest k n.
Proof. unfold slice. now rewrite drop_app. Qed.

(** ** Running the primitives *)

Lemma at_pos_cursor (w : world) : at_pos w (cursor w) = w.
Proof. destruct w as [s [c p]]; reflexivity. Qed.

Lemma f_read_run (n : N) (w : world) :
  f_read n w = (Ret (slice (bytes_of w) (cursor w) n),
                at_pos w (after_read n (bytes_of w) (cursor w))).
Proof. reflexivity. Qed.

Lemma read_uint16_run (w : world) :
  read_uint16 w = (Ret (uint_at (little_of w) 2 (bytes_of w) (cursor w)),
                   at_pos w (after_read 2 (bytes_of w) (cursor w))).
Proof.
  unfold read_uint16, bind. rewrite f_read_run.
  unfold uint_at, uint_value.
  destruct (len (slice (bytes_of w) (cursor w) 2) =? 2) eqn:E; cbn [negb].
  - unfold struct_unpack, get_is_little_endian, ret. rewrite E. reflexivity.
  - reflexivity.
Qed.

Lemma read_uint32_run (w : world) :
  read_uint32 w = (Ret (uint_at (little_of w) 4 (bytes_of w) (cursor w)),
                   at_pos w (after_read 4 (bytes_of w) (cursor w))).
Proof.
  unfold read_uint32, bind. rewrite f_read_run.
  unfold uint_at, uint_value.
  destruct (len (slice (bytes_of w) (cursor w) 4) =? 4) eqn:E; cbn [negb].
  - unfold struct_unpack, get_is_little_endian, ret. rewrite E. reflexivity.
  - reflexivity.
Qed.

Lemma read_data_at_offset_run (offset count : N) (w : world) :
  read_data_at_offset offset count w = (Ret (slice (bytes_of w) offset count), w).
Proof. destruct w as [s [c p]]; reflexivity. Qed.

(** ** Running the scanning loops *)

Lemma little_of_at_pos (w : world) (p : N) : little_of (at_pos w p) = little_of w.
Proof. reflexivity. Qed.

Lemma bytes_of_at_pos (w : world) (p : N) : bytes_of (at_pos w p) = bytes_of w.
Proof. reflexivity. Qed.

Lemma cursor_at_pos (w : world) (p : N) : cursor (at_pos w p) = p.
Proof. reflexivity. Qed.

Lemma at_pos_at_pos (w : world) (p q : N) : at_pos (at_pos w p) q = at_pos w q.
Proof. reflexivity. Qed.

Lemma f_seek_run (offset : N) (w : world) : f_seek offset w = (Ret tt, at_pos w offset).
Proof. reflexivity. Qed.

Create Rewrite HintDb run.

#[local] Hint Rewrite f_seek_run f_read_run read_uint16_run read_uint32_run
  read_data_at_offset_run
  little_of_at_pos bytes_of_at_pos cursor_at_pos at_pos_at_pos : run.

(** One step of a method body: open the binds and replace every primitive by
    what it returns and the world it leaves. *)
Ltac run_reads := unfold bind; autorewrite with run.

Lemma scan_ifd_loop_run (n : nat) (w : world) :
  exists p,
    scan_ifd_loop n w =
    (Ret (option_map value_or_offset
            (locate 34665 None (entries_at (little_of w) (bytes_of w) (cursor w) n))),
     at_pos w p).
Proof.
  revert w; induction n as [|n IH]; intros w.
  - exists (cursor w). now rewrite at_pos_cursor.
  - cbn [scan_ifd_loop entries_at entry_at]. run_reads.
    cbn [locate find tag]. rewrite andb_true_r.
    match goal with |- context [if ?c then _ else _] => destruct c eqn:E end.
    + eexists. reflexivity.
    + match goal with |- context [scan_ifd_loop n ?w'] =>
        destruct (IH w') as [p Hp]; rewrite Hp end.
      exists p. reflexivity.
Qed.

Lemma scan_exif_loop_run (n : nat) (w : world) :
  exists p,
    scan_exif_loop n w =
    (Ret (first_some (origin_text (bytes_of w))
            (entries_at (little_of w) (bytes_of w) (cursor w) n)),
     at_pos w p).
Proof.
  revert w; induction n as [|n IH]; intros w.
  - exists (cursor w). now rewrite at_pos_cursor.
  - cbn [scan_exif_loop entries_at entry_at]. run_reads.
    cbn [first_some]. unfold origin_text at 1, payload_of.
    cbn [tag field_type count value_or_offset].
    match goal with |- context [if ?c then _ else _] => destruct c eqn:E end.
    + run_reads.
      match goal with |- context [looks_like_origin_json ?t] =>
        destruct (looks_like_origin_json t) eqn:L end.
      * eexists. reflexivity.
      * match goal with |- context [scan_exif_loop n ?w'] =>
          destruct (IH w') as [p Hp]; rewrite Hp end.
        exists p. reflexivity.
    + match goal with |- context [scan_exif_loop n ?w'] =>
        destruct (IH w') as [p Hp]; rewrite Hp end.
      exists p. reflexivity.
Qed.

Lemma scan_ifd_for_exif_run (offset : N) (w : world) :
  exists p,
    scan_ifd_for_exif offset w =
    (Ret (exif_pointer (little_of w) (bytes_of w) offset), at_pos w p).
Proof.
  unfold scan_ifd_for_exif, exif_pointer.
  destruct (offset =? 0).
  - exists (cursor w). now rewrite at_pos_cursor.
  - run_reads. unfold entry_count.
    destruct (1000 <? uint_at (little_of w) 2 (bytes_of w) offset).
    + eexists. reflexivity.
    + match goal with |- context [scan_ifd_loop ?n ?w'] =>
        destruct (scan_ifd_loop_run n w') as [p Hp]; rewrite Hp end.
      exists p. reflexivity.
Qed.

Lemma scan_exif_for_origin_data_run (exif_offset : N) (w : world) :
  exists p,
    scan_exif_for_origin_data exif_offset w =
    (Ret (origin_json_text (little_of w) (bytes_of w) exif_offset), at_pos w p).
Proof.
  unfold scan_exif_for_origin_data, origin_json_text.
  run_reads. unfold entry_count.
  destruct (100 <? uint_at (little_of w) 2 (bytes_of w) exif_offset).
  - eexists. reflexivity.
  - match goal with |- context [scan_exif_loop ?n ?w'] =>
      destruct (scan_exif_loop_run n w') as [p Hp]; rewrite Hp end.
    exists p. reflexivity.
Qed.

(** ** Running the extraction *)

Lemma json_loads_run (interp : interpreter) (text : string) (w : world) :
  json_loads interp text w = (loads_outcome interp text, w).
Proof. reflexivity. Qed.

Lemma after_byte_order_run (interp : interpreter) (w : world) :
  cursor w = 2 ->
  fst (after_byte_order interp w)
  = (if uint_at (little_of w) 2 (bytes_of w) 2 =? 42
     then block_after_header interp (little_of w) (bytes_of w)
            (uint_at (little_of w) 4 (bytes_of w) (after_read 2 (bytes_of w) 2))
     else Ret None).
Proof.
  intros Hc. unfold after_byte_order. run_reads. rewrite Hc.
  destruct (uint_at (little_of w) 2 (bytes_of w) 2 =? 42); cbn [negb].
  2: { reflexivity. }
  run_reads.
  match goal with |- context [scan_ifd_for_exif ?o ?w'] =>
    destruct (scan_ifd_for_exif_run o w') as [p Hp]; rewrite Hp end.
  run_reads. unfold block_after_header.
  destruct (exif_pointer _ _ _) as [exif_offset|]; [|reflexivity].
  destruct (exif_offset =? 0); [reflexivity|].
  run_reads.
  match goal with |- context [scan_exif_for_origin_data ?o ?w'] =>
    destruct (scan_exif_for_origin_data_run o w') as [q Hq]; rewrite Hq end.
  run_reads.
  destruct (origin_json_text _ _ _) as [text|]; [|reflexivity].
  destruct text as [|c text]; [reflexivity|].
  run_reads. rewrite json_loads_run.
  destruct (loads_outcome interp (String c text)); reflexivity.
Qed.

Lemma bytes_eqb_eq (a b : list byte) : bytes_eqb a b = true -> a = b.
Proof.
  revert b; induction a as [|x a IH]; intros [|y b]; simpl; try discriminate; auto.
  intros H. apply andb_true_iff in H as [Hx Hab].
  apply Byte.byte_dec_bl in Hx. subst. f_equal. auto.
Qed.

Lemma with_open_body_run (interp : interpreter) (reader : TIFFAstroReader)
      (bytes : list byte) :
  fst (with_open_body interp (mkworld reader (mkfile bytes 0)))
  = block_result interp bytes.
Proof.
  unfold with_open_body, block_result, header_of, byte_order_of.
  set (w := mkworld reader (mkfile bytes 0)).
  run_reads. change (bytes_of w) with bytes. change (cursor w) with 0.
  assert (Hpos : forall m, slice bytes 0 2 = m -> len m = 2 ->
                           after_read 2 bytes 0 = 2).
  { intros m Hm Hl. unfold after_read. rewrite Hm, Hl. reflexivity. }
  destruct (bytes_eqb (slice bytes 0 2) b_II) eqn:EI.
  - apply bytes_eqb_eq in EI. rewrite (Hpos _ EI eq_refl).
    unfold set_is_little_endian.
    match goal with |- context [after_byte_order interp ?w'] =>
      pose proof (after_byte_order_run interp w' eq_refl) as H end.
    cbv beta iota delta [little_of bytes_of at_pos w self f content
                         is_little_endian cursor pos] in H |- *.
    destruct (uint_at true 2 bytes 2 =? 42); exact H.
  - destruct (bytes_eqb (slice bytes 0 2) b_MM) eqn:EM.
    + apply bytes_eqb_eq in EM. rewrite (Hpos _ EM eq_refl).
      unfold set_is_little_endian.
      match goal with |- context [after_byte_order interp ?w'] =>
        pose proof (after_byte_order_run interp w' eq_refl) as H end.
      cbv beta iota delta [little_of bytes_of at_pos w self f content
                           is_little_endian cursor pos] in H |- *.
      destruct (uint_at false 2 bytes 2 =? 42); exact H.
    + reflexivity.
Qed.

Lemma loads_returned_empty (interp : interpreter) :
  loads_returned interp EmptyString = Ret None.
Proof. reflexivity. Qed.

(** The [except] clause applied to the outcome of the [try] block. *)
Lemma handled_block_result (interp : interpreter) (bytes : list byte) :
  handled (block_result interp bytes) = extraction_result interp bytes.
Proof.
  unfold block_result, extraction_result.
  destruct (header_of bytes) as [[little first]|]; [|reflexivity].
  unfold block_after_header, after_header.
  destruct (exif_pointer little bytes first) as [exif_offset|]; [|reflexivity].
  destruct (exif_offset =? 0); [reflexivity|].
  destruct (origin_json_text little bytes exif_offset) as [[|c text]|];
    reflexivity.
Qed.

(** The method does, for a file that can be opened, what
    [extraction_result] computes from its bytes. *)
Lemma extract_astronomical_metadata_eq
      (interp : interpreter) (fs : filesystem) (reader : TIFFAstroReader)
      (bytes : list byte) :
  fs (filename reader) = Some bytes ->
  fst (extract_astronomical_metadata interp fs reader)
  = extraction_result interp bytes.
Proof.
  intros Hfs. unfold extract_astronomical_metadata, try_block. rewrite Hfs.
  rewrite <- handled_block_result, <- (with_open_body_run interp reader bytes).
  destruct (with_open_body _ _) as [[r|e] w]; reflexivity.
Qed.

(** A file that cannot be opened: [IOError] is caught, the result is [None]. *)
Lemma extract_astronomical_metadata_unreadable
      (interp : interpreter) (fs : filesystem) (reader : TIFFAstroReader) :
  fs (filename reader) = None ->
  fst (extract_astronomical_metadata interp fs reader) = Ret None.
Proof.
  intros Hfs. unfold extract_astronomical_metadata, try_block. now rewrite Hfs.
Qed.

(** ** The out-of-line read *)

(** C9, as amended.  [read_data_at_offset] returns the bytes of the file in
    the range from [offset] to [offset + count] and leaves the world as it
    found it: cursor, content and endianness flag are unchanged.  It returns
    [count] bytes when the range lies inside the file, and only the bytes that
    exist when the range runs past the end. *)
Theorem read_data_at_offset_frame (offset count : N) (w : world) :
  read_data_at_offset offset count w = (Ret (slice (bytes_of w) offset count), w)
  /\ len (slice (bytes_of w) offset count) = N.min count (len (bytes_of w) - offset).
Proof.
  split; [apply read_data_at_offset_run | apply len_slice].
Qed.

(** C9, as stated, fails: on the four-byte file a read of five bytes at
    offset 2 returns two bytes. *)
Lemma read_data_at_offset_short :
  exists data w',
    read_data_at_offset 2 5 (open_at_start four_byte_file) = (Ret data, w')
    /\ len data = 2 /\ len data <> 5.
Proof.
  eexists; eexists. split; [reflexivity|]. split; [reflexivity|discriminate].
Qed.

(** ** Decoding the payload *)

Lemma append_assoc (a b c : string) :
  String.append (String.append a b) c = String.append a (String.append b c).
Proof. induction a as [|x a IH]; simpl; [reflexivity|now rewrite IH]. Qed.

Lemma append_empty (a : string) : String.append a EmptyString = a.
Proof. induction a as [|x a IH]; simpl; [reflexivity|now rewrite IH]. Qed.

Lemma decode_loop_eq (text : string) (data : list byte) :
  decode_loop text data =
  String.append text
    (string_of_list_ascii (map chr (filter printable (until_zero data)))).
Proof.
  revert text; induction data as [|b rest IH]; intros text; simpl.
  - now rewrite append_empty.
  - destruct (Byte.to_N b =? 0); simpl; [now rewrite append_empty|].
    unfold printable at 1.
    destruct ((32 <=? Byte.to_N b) && (Byte.to_N b <=? 126)); simpl.
    + rewrite IH, append_assoc. reflexivity.
    + apply IH.
Qed.

(** C5, as amended.  Decoding stops at the first zero byte only; of the bytes
    before it, the printable ones (0x20 to 0x7E) are copied in order and every
    other byte is passed over without ending the scan. *)
Theorem decode_text_eq (data : list byte) :
  decode_text data =
  string_of_list_ascii (map chr (filter printable (until_zero data))).
Proof. unfold decode_text. now rewrite decode_loop_eq. Qed.

(** C5, as stated, fails: after the unprintable byte 0x01 the code goes on
    and copies the next printable byte. *)
Lemma decode_text_passes_over_unprintable :
  decode_text [x41; x01; x42] = "AB"%string
  /\ decode_until_unprintable [x41; x01; x42] = "A"%string
  /\ decode_text [x41; x01; x42] <> decode_until_unprintable [x41; x01; x42].
Proof. repeat split; try reflexivity. discriminate. Qed.

(** ** Locating tags *)

Lemma first_some_usable (bytes : list byte) (directory : list DirectoryEntry) :
  first_some (origin_text bytes) directory =
  option_map (text_of bytes) (find (usable bytes) directory).
Proof.
  induction directory as [|e rest IH]; simpl; [reflexivity|].
  unfold origin_text at 1, usable at 1, text_of.
  destruct ((tag e =? 37500) && (field_type e =? 7)); simpl; [|exact IH].
  destruct (looks_like_origin_json _); simpl; [reflexivity|exact IH].
Qed.

(** C6, as amended.  The scan of the root IFD returns the [value_or_offset]
    of the first entry, in directory order, whose tag is 34665, and [None]
    when there is none (or the offset is 0, or the count exceeds 1000).  The
    scan of the EXIF IFD tries the tag-37500 entries of type 7 in directory
    order and returns the decoded payload of the first of them that passes
    the content test; such an entry that fails the test is passed over, and
    [None] is returned when none passes (or the count exceeds 100). *)
Theorem scans_locate_first_match (offset : N) (w : world) :
  fst (scan_ifd_for_exif offset w) =
    Ret (if offset =? 0 then None
         else if 1000 <? entry_count (little_of w) (bytes_of w) offset then None
         else option_map value_or_offset
                (locate 34665 None (directory_at (little_of w) (bytes_of w) offset)))
  /\ fst (scan_exif_for_origin_data offset w) =
    Ret (if 100 <? entry_count (little_of w) (bytes_of w) offset then None
         else option_map (text_of (bytes_of w))
                (find (usable (bytes_of w))
                      (directory_at (little_of w) (bytes_of w) offset))).
Proof.
  split.
  - destruct (scan_ifd_for_exif_run offset w) as [p ->]. reflexivity.
  - destruct (scan_exif_for_origin_data_run offset w) as [p ->].
    unfold origin_json_text. now rewrite first_some_usable.
Qed.

(** C6, as stated, fails: with two tag-37500 entries of type 7 in the EXIF
    IFD, the first of which holds the bytes of [junk], the scan returns the
    payload of the second entry, where a locator that uses the first match
    only finds nothing. *)
Lemma second_application_data_entry_used :
  let bytes := encode true two_payload_tiff in
  map is_application_data (directory_at true bytes 22) = [true; true]
  /\ fst (scan_exif_for_origin_data 22 (open_at_start bytes))
     = Ret (Some (decode_text m42_payload))
  /\ first_match_text bytes (directory_at true bytes 22) = None.
Proof. vm_compute. repeat split; reflexivity. Qed.

(** ** What the extraction returns where the specification has errors *)

Lemma first_some_none {A B} (g : A -> option B) (l : list A) :
  forallb (fun a => match g a with Some _ => false | None => true end) l = true ->
  first_some g l = None.
Proof.
  induction l as [|a rest IH]; simpl; [reflexivity|].
  destruct (g a); simpl; [discriminate|exact IH].
Qed.

(** C7.  A file with a valid header and an EXIF IFD in which no entry has
    both tag 37500 and field type 7 yields [None]; an entry with tag 37500
    and another field type counts as absent and raises nothing. *)
Theorem no_application_data_returns_none
        (interp : interpreter) (fs : filesystem) (reader : TIFFAstroReader) (bytes : list byte)
        (little : bool) (first_ifd_offset exif_offset : N) :
  fs (filename reader) = Some bytes ->
  header_of bytes = Some (little, first_ifd_offset) ->
  exif_pointer little bytes first_ifd_offset = Some exif_offset ->
  forallb (fun e => negb (is_application_data e))
          (directory_at little bytes exif_offset) = true ->
  fst (extract_astronomical_metadata interp fs reader) = Ret None.
Proof.
  intros Hfs Hh Hp Hnone.
  rewrite (extract_astronomical_metadata_eq interp fs reader bytes Hfs).
  unfold extraction_result, after_header. rewrite Hh, Hp.
  destruct (exif_offset =? 0); [reflexivity|].
  unfold origin_json_text.
  destruct (100 <? entry_count little bytes exif_offset); [reflexivity|].
  rewrite first_some_none; [reflexivity|].
  induction (directory_at little bytes exif_offset) as [|e rest IH];
    [reflexivity|].
  simpl in Hnone |- *. apply andb_true_iff in Hnone as [He Hrest].
  rewrite (IH Hrest), andb_true_r.
  unfold origin_text. unfold is_application_data in He.
  destruct ((tag e =? 37500) && (field_type e =? 7)); [discriminate|reflexivity].
Qed.

Lemma no_application_data_returns_none_witness :
  fst (extract_astronomical_metadata cpython (holding (encode true wrong_type_tiff)) any_reader)
  = Ret None.
Proof.
  apply (no_application_data_returns_none cpython
           (holding (encode true wrong_type_tiff)) any_reader
           (encode true wrong_type_tiff) true 8 22);
    vm_compute; reflexivity.
Defined.

(** C2, as amended.  When the root IFD announces more than 1000 entries, or
    the EXIF IFD more than 100, the extraction returns [None], the result it
    also returns for absent metadata; no error reaches the caller. *)
Theorem oversized_directory_returns_none
        (interp : interpreter) (fs : filesystem) (reader : TIFFAstroReader) (bytes : list byte)
        (little : bool) (first_ifd_offset : N) :
  fs (filename reader) = Some bytes ->
  header_of bytes = Some (little, first_ifd_offset) ->
  1000 < entry_count little bytes first_ifd_offset
  \/ (exists exif_offset,
         exif_pointer little bytes first_ifd_offset = Some exif_offset
         /\ 100 < entry_count little bytes exif_offset) ->
  fst (extract_astronomical_metadata interp fs reader) = Ret None.
Proof.
  intros Hfs Hh Hbig.
  rewrite (extract_astronomical_metadata_eq interp fs reader bytes Hfs).
  unfold extraction_result, after_header. rewrite Hh.
  destruct Hbig as [Hroot|[exif_offset [Hp Hexif]]].
  - unfold exif_pointer. destruct (first_ifd_offset =? 0); [reflexivity|].
    apply N.ltb_lt in Hroot. now rewrite Hroot.
  - rewrite Hp. destruct (exif_offset =? 0); [reflexivity|].
    unfold origin_json_text. apply N.ltb_lt in Hexif. now rewrite Hexif.
Qed.

Lemma oversized_directory_returns_none_witness :
  fst (extract_astronomical_metadata cpython (holding oversized_exif_file) any_reader)
  = Ret None.
Proof.
  apply (oversized_directory_returns_none cpython
           (holding oversized_exif_file) any_reader oversized_exif_file true 8);
    [reflexivity | reflexivity |].
  right. exists 22. split; [reflexivity | vm_compute; reflexivity].
Defined.

(** C2, as stated, fails: for a root IFD of 1001 entries, and for an EXIF IFD
    of 101 entries, the extraction returns [None] and reports no error. *)
Lemma oversized_directory_no_error :
  (header_of oversized_root_file = Some (true, 8)
   /\ entry_count true oversized_root_file 8 = 1001
   /\ fst (extract_astronomical_metadata cpython (holding oversized_root_file) any_reader)
      = Ret None
   /\ ~ reports_error
        (fst (extract_astronomical_metadata cpython (holding oversized_root_file) any_reader)))
  /\ (header_of oversized_exif_file = Some (true, 8)
      /\ exif_pointer true oversized_exif_file 8 = Some 22
      /\ entry_count true oversized_exif_file 22 = 101
      /\ fst (extract_astronomical_metadata cpython (holding oversized_exif_file) any_reader)
         = Ret None
      /\ ~ reports_error
           (fst (extract_astronomical_metadata cpython (holding oversized_exif_file) any_reader))).
Proof.
  repeat split; try (vm_compute; reflexivity);
    intros [e He]; vm_compute in He; discriminate.
Qed.

Lemma origin_json_text_looks_right
      (little : bool) (bytes : list byte) (exif_offset : N) (text : string) :
  origin_json_text little bytes exif_offset = Some text ->
  looks_like_origin_json text = true.
Proof.
  unfold origin_json_text.
  destruct (100 <? entry_count little bytes exif_offset); [discriminate|].
  induction (directory_at little bytes exif_offset) as [|e rest IH]; simpl;
    [discriminate|].
  unfold origin_text at 1.
  destruct ((tag e =? 37500) && (field_type e =? 7)); [|exact IH].
  destruct (looks_like_origin_json (decode_text (payload_of bytes e))) eqn:L;
    [|exact IH].
  intros H; inversion H; subst. exact L.
Qed.




(** ** Files shorter than the header *)

Lemma after_read_le (width : N) (bytes : list byte) (p : N) :
  p <= len bytes -> after_read width bytes p <= len bytes.
Proof. unfold after_read. rewrite len_slice. lia. Qed.

Lemma uint_at_nonzero (little : bool) (width : N) (bytes : list byte) (p : N) :
  uint_at little width bytes p <> 0 -> after_read width bytes p = p + width.
Proof.
  unfold uint_at, uint_value, after_read.
  destruct (N.eqb_spec (len (slice bytes p width)) width) as [->|_]; congruence.
Qed.

Lemma uint_at_short (little : bool) (width : N) (bytes : list byte) (p : N) :
  0 < width -> len bytes < p + width -> uint_at little width bytes p = 0.
Proof.
  intros Hw H. unfold uint_at, uint_value.
  destruct (N.eqb_spec (len (slice bytes p width)) width) as [E|_]; [|reflexivity].
  rewrite len_slice in E. lia.
Qed.

Lemma after_byte_order_short (interp : interpreter) (w : world) :
  cursor w = 2 -> 2 <= len (bytes_of w) -> len (bytes_of w) < 8 ->
  exists p, after_byte_order interp w = (Ret None, at_pos w p) /\ p <= len (bytes_of w).
Proof.
  intros Hc Hl Hs. unfold after_byte_order. run_reads. rewrite Hc.
  destruct (N.eqb_spec (uint_at (little_of w) 2 (bytes_of w) 2) 42) as [E|_];
    cbn [negb].
  - run_reads.
    pose proof (after_read_le 2 (bytes_of w) 2 Hl) as H4.
    rewrite (uint_at_nonzero (little_of w) 2 (bytes_of w) 2) in H4
      by (rewrite E; discriminate).
    rewrite (uint_at_nonzero (little_of w) 2 (bytes_of w) 2) by (rewrite E; discriminate).
    rewrite (uint_at_short (little_of w) 4 (bytes_of w) (2 + 2)) by lia.
    unfold scan_ifd_for_exif. cbn [N.eqb]. run_reads.
    eexists. split; [reflexivity|].
    apply after_read_le. change (bytes_of (at_pos w (2 + 2))) with (bytes_of w). lia.
  - eexists. split; [reflexivity|]. apply after_read_le. lia.
Qed.

Lemma with_open_body_short (interp : interpreter) (reader : TIFFAstroReader)
      (bytes : list byte) :
  len bytes < 8 ->
  exists w, with_open_body interp (mkworld reader (mkfile bytes 0)) = (Ret None, w)
            /\ bytes_of w = bytes /\ cursor w <= len bytes.
Proof.
  intros Hs. unfold with_open_body.
  set (w0 := mkworld reader (mkfile bytes 0)).
  run_reads. change (bytes_of w0) with bytes. change (cursor w0) with 0.
  assert (Hmark : forall m, slice bytes 0 2 = m -> len m = 2 ->
                            after_read 2 bytes 0 = 2 /\ 2 <= len bytes).
  { intros m Hm Hl. unfold after_read. pose proof (len_slice bytes 0 2) as L.
    rewrite Hm, Hl in *. split; [reflexivity|lia]. }
  assert (Hend : after_read 2 bytes 0 <= len bytes) by (apply after_read_le; lia).
  destruct (bytes_eqb (slice bytes 0 2) b_II) eqn:EI;
    [|destruct (bytes_eqb (slice bytes 0 2) b_MM) eqn:EM].
  - apply bytes_eqb_eq in EI. destruct (Hmark _ EI eq_refl) as [-> H2].
    unfold set_is_little_endian.
    match goal with |- context [after_byte_order interp ?w'] =>
      destruct (after_byte_order_short interp w' eq_refl H2 Hs) as [p [-> Hp]] end.
    eexists. split; [reflexivity|]. split; [reflexivity|exact Hp].
  - apply bytes_eqb_eq in EM. destruct (Hmark _ EM eq_refl) as [-> H2].
    unfold set_is_little_endian.
    match goal with |- context [after_byte_order interp ?w'] =>
      destruct (after_byte_order_short interp w' eq_refl H2 Hs) as [p [-> Hp]] end.
    eexists. split; [reflexivity|]. split; [reflexivity|exact Hp].
  - eexists. split; [reflexivity|]. split; [reflexivity|exact Hend].
Qed.

(** C8, as amended.  For a file shorter than 8 bytes the extraction returns
    [None], the result it also returns for absent metadata, wherever the
    truncation falls; it raises nothing, and the cursor of the file never
    passes the end of the file. *)
Theorem short_file_returns_none
        (interp : interpreter) (fs : filesystem) (reader : TIFFAstroReader) (bytes : list byte) :
  fs (filename reader) = Some bytes ->
  len bytes < 8 ->
  fst (extract_astronomical_metadata interp fs reader) = Ret None
  /\ cursor (snd (try_block interp fs reader)) <= len bytes.
Proof.
  intros Hfs Hs. unfold extract_astronomical_metadata, try_block. rewrite Hfs.
  destruct (with_open_body_short interp reader bytes Hs) as [w [-> [_ Hc]]].
  split; [reflexivity|exact Hc].
Qed.

Lemma short_file_returns_none_witness :
  fst (extract_astronomical_metadata cpython (holding four_byte_file) any_reader) = Ret None
  /\ cursor (snd (try_block cpython (holding four_byte_file) any_reader)) <= len four_byte_file.
Proof.
  apply (short_file_returns_none cpython (holding four_byte_file) any_reader four_byte_file);
    [reflexivity | vm_compute; reflexivity].
Defined.

(** C8, as stated, fails: the four-byte file made of the byte order mark and
    the magic number yields [None], not an error. *)
Lemma short_file_no_error :
  len four_byte_file = 4
  /\ fst (extract_astronomical_metadata cpython (holding four_byte_file) any_reader) = Ret None
  /\ ~ reports_error
       (fst (extract_astronomical_metadata cpython (holding four_byte_file) any_reader)).
Proof.
  repeat split; try (vm_compute; reflexivity).
  intros [e He]; vm_compute in He; discriminate.
Qed.

(** ** The value returned *)

(** C10.  The value returned need not be a dictionary: for the payload
    [["StackedInfo{"]], which passes the content test and is a JSON array,
    the extraction returns the parsed list. *)
Theorem array_payload_returned :
  looks_like_origin_json (decode_text (data_area array_payload_tiff)) = true
  /\ fst (extract_astronomical_metadata cpython
            (holding (encode false array_payload_tiff)) any_reader)
     = Ret (Some (JArray [JString (pystr_of "StackedInfo{")])).
Proof. split; vm_compute; reflexivity. Qed.

(** ** The round trip of the M42 document *)

Lemma tag_not_later (x : N) (rest : list DirectoryEntry) (j : nat) (e : DirectoryEntry) :
  existsb (N.eqb x) (map tag rest) = false ->
  nth_error rest j = Some e ->
  tag e <> x.
Proof.
  revert j; induction rest as [|a rest IH]; intros j; simpl.
  - destruct j; discriminate.
  - intros H. apply orb_false_iff in H as [Ha Hrest].
    destruct j as [|j]; simpl.
    + intros E; inversion E; subst. apply N.eqb_neq in Ha. congruence.
    + apply IH. exact Hrest.
Qed.

Lemma first_some_unique (bytes : list byte) (directory : list DirectoryEntry)
      (i : nat) (e : DirectoryEntry) :
  unique_tags directory = true ->
  nth_error directory i = Some e ->
  tag e = 37500 -> field_type e = 7 ->
  looks_like_origin_json (text_of bytes e) = true ->
  first_some (origin_text bytes) directory = Some (text_of bytes e).
Proof.
  unfold unique_tags. intros Hu Hi Ht Hf Hl.
  revert i Hu Hi; induction directory as [|a rest IH]; intros i Hu Hi.
  - destruct i; discriminate.
  - simpl in Hu. apply andb_true_iff in Hu as [Ha Hrest].
    destruct i as [|j]; simpl in Hi.
    + inversion Hi; subst a. simpl. unfold origin_text.
      rewrite Ht, Hf. cbn [N.eqb Pos.eqb andb].
      unfold text_of in Hl. rewrite Hl. reflexivity.
    + simpl. apply negb_true_iff in Ha.
      pose proof (tag_not_later _ _ _ _ Ha Hi) as Hne.
      unfold origin_text at 1.
      replace (tag a =? 37500) with false
        by (symmetry; apply N.eqb_neq; congruence).
      cbn [andb]. eapply IH; eassumption.
Qed.

(** The M42 document nests two objects: an interpreter with room for two
    levels parses it, whatever its limit on integer literals. *)
Lemma m42_loads (interp : interpreter) :
  (2 <= nesting_room interp)%nat ->
  exists document info,
    loads_outcome interp (decode_text m42_payload) = Ret document
    /\ json_getitem document "StackedInfo" = Some info
    /\ json_getitem info "objectName" = Some (JString (pystr_of "M42")).
Proof.
  destruct interp as [[|[|room]] errors limit]; cbn [nesting_room]; intros Hroom;
    try lia.
  eexists; eexists. split; [vm_compute; reflexivity|].
  split; vm_compute; reflexivity.
Qed.

(** C3.  In a well-formed TIFF (valid header, an EXIF pointer in a root IFD
    of at most 1000 entries, an EXIF IFD of at most 100 entries that lists no
    tag twice) whose EXIF IFD holds a tag-37500 entry of type 7 with the
    value bytes [m42_payload], the extraction returns a parsed document whose
    ["StackedInfo"]["objectName"] is the string [M42].  The interpreter is
    any one that lets the decoder enter the two nested objects of the
    document. *)
Theorem m42_round_trip
        (interp : interpreter) (fs : filesystem) (reader : TIFFAstroReader) (bytes : list byte)
        (little : bool) (first_ifd_offset exif_offset : N)
        (i : nat) (e : DirectoryEntry) :
  (2 <= nesting_room interp)%nat ->
  fs (filename reader) = Some bytes ->
  header_of bytes = Some (little, first_ifd_offset) ->
  exif_pointer little bytes first_ifd_offset = Some exif_offset ->
  exif_offset <> 0 ->
  entry_count little bytes exif_offset <= 100 ->
  unique_tags (directory_at little bytes exif_offset) = true ->
  nth_error (directory_at little bytes exif_offset) i = Some e ->
  tag e = 37500 ->
  field_type e = 7 ->
  payload_of bytes e = m42_payload ->
  exists document info,
    fst (extract_astronomical_metadata interp fs reader) = Ret (Some document)
    /\ json_getitem document "StackedInfo" = Some info
    /\ json_getitem info "objectName" = Some (JString (pystr_of "M42")).
Proof.
  intros Hroom Hfs Hh Hp Hnz Hcount Hu Hi Ht Hf Hpay.
  rewrite (extract_astronomical_metadata_eq interp fs reader bytes Hfs).
  unfold extraction_result, after_header. rewrite Hh, Hp.
  apply N.eqb_neq in Hnz. rewrite Hnz.
  unfold origin_json_text.
  replace (100 <? entry_count little bytes exif_offset) with false
    by (symmetry; apply N.ltb_ge; exact Hcount).
  assert (Htext : text_of bytes e = decode_text m42_payload)
    by (unfold text_of; now rewrite Hpay).
  rewrite (first_some_unique bytes _ i e Hu Hi Ht Hf)
    by (rewrite Htext; vm_compute; reflexivity).
  rewrite Htext.
  destruct (m42_loads interp Hroom) as [document [info [Hl [Hd Hi']]]].
  exists document, info. unfold loads_returned. rewrite Hl.
  repeat split; assumption.
Qed.

Lemma m42_round_trip_witness :
  exists document info,
    fst (extract_astronomical_metadata cpython (holding (encode false m42_tiff)) any_reader)
    = Ret (Some document)
    /\ json_getitem document "StackedInfo" = Some info
    /\ json_getitem info "objectName" = Some (JString (pystr_of "M42")).
Proof.
  apply (m42_round_trip cpython (holding (encode false m42_tiff)) any_reader
           (encode false m42_tiff) false 8 34 0 (mkentry 37500 7 37 48));
    try (vm_compute; reflexivity).
  - vm_compute. lia.
  - discriminate.
  - vm_compute. discriminate.
Defined.

(** ** Packing and unpacking *)

Section Encoding.

(** The byte order of the encoding, the same for every field. *)
Variable little : bool.

Lemma to_N_byte_of_N (n : N) : Byte.to_N (byte_of_N n) = n mod 256.
Proof.
  unfold byte_of_N. destruct (Byte.of_N (n mod 256)) as [b|] eqn:E.
  - now apply Byte.to_of_N in E.
  - apply Byte.of_N_None_iff in E.
    pose proof (N.mod_upper_bound n 256). lia.
Qed.

Lemma length_low_bytes (width : nat) (v : N) : List.length (low_bytes width v) = width.
Proof. revert v; induction width as [|w IH]; intros v; simpl; auto. Qed.

Lemma len_pack (width : nat) (v : N) :
  len (pack little width v) = N.of_nat width.
Proof.
  unfold len, pack. destruct little; [|rewrite length_rev];
    now rewrite length_low_bytes.
Qed.

Lemma little_endian_low_bytes (width : nat) (v : N) :
  little_endian_value (low_bytes width v) = v mod 256 ^ N.of_nat width.
Proof.
  revert v; induction width as [|w IH]; intros v.
  - simpl. now rewrite N.mod_1_r.
  - cbn [low_bytes little_endian_value fold_right].
    fold (little_endian_value (low_bytes w (v / 256))).
    rewrite IH, to_N_byte_of_N, Nat2N.inj_succ, N.pow_succ_r'.
    rewrite N.Div0.mod_mul_r. reflexivity.
Qed.

Lemma big_endian_rev (l : list byte) :
  big_endian_value (rev l) = little_endian_value l.
Proof.
  unfold big_endian_value, little_endian_value.
  induction l as [|b t IH]; cbn [rev fold_right]; [reflexivity|].
  rewrite fold_left_app. cbn [fold_left]. rewrite IH. lia.
Qed.

Lemma uint_value_pack (width : nat) (v : N) :
  v < 256 ^ N.of_nat width ->
  uint_value little (N.of_nat width) (pack little width v) = v.
Proof.
  intros Hv. unfold uint_value. rewrite len_pack, N.eqb_refl.
  unfold pack. destruct little; [|rewrite big_endian_rev];
    rewrite little_endian_low_bytes; now apply N.mod_small.
Qed.

Lemma packed_at (width : nat) (v : N)
      (pre rest : list byte) (p : N) :
  p = len pre ->
  v < 256 ^ N.of_nat width ->
  uint_at little (N.of_nat width) (pre ++ pack little width v ++ rest) p = v
  /\ after_read (N.of_nat width) (pre ++ pack little width v ++ rest) p
     = p + N.of_nat width.
Proof.
  intros -> Hv. unfold uint_at, after_read.
  assert (S : slice (pre ++ pack little width v ++ rest) (len pre) (N.of_nat width)
              = pack little width v).
  { rewrite <- (len_pack width v). apply slice_app. }
  rewrite S, len_pack. split; [now apply uint_value_pack|reflexivity].
Qed.

Lemma packed16_at (v : N) (pre rest : list byte) (p : N) :
  p = len pre -> (v <? 65536) = true ->
  uint_at little 2 (pre ++ pack little 2 v ++ rest) p = v
  /\ after_read 2 (pre ++ pack little 2 v ++ rest) p = p + 2.
Proof.
  intros Hp Hv. apply N.ltb_lt in Hv.
  apply (packed_at 2 v pre rest p Hp). exact Hv.
Qed.

Lemma packed32_at (v : N) (pre rest : list byte) (p : N) :
  p = len pre -> (v <? 4294967296) = true ->
  uint_at little 4 (pre ++ pack little 4 v ++ rest) p = v
  /\ after_read 4 (pre ++ pack little 4 v ++ rest) p = p + 4.
Proof.
  intros Hp Hv. apply N.ltb_lt in Hv.
  apply (packed_at 4 v pre rest p Hp). exact Hv.
Qed.

(** ** Reading an encoded directory *)

Lemma len_encode_entry (e : DirectoryEntry) :
  len (encode_entry little e) = 12.
Proof. unfold encode_entry. rewrite !len_app, !len_pack. reflexivity. Qed.

Lemma len_encode_entries (entries : list DirectoryEntry) :
  len (flat_map (encode_entry little) entries) = 12 * N.of_nat (List.length entries).
Proof.
  induction entries as [|e rest IH]; [reflexivity|].
  cbn [flat_map List.length]. rewrite len_app, len_encode_entry, IH. lia.
Qed.

Lemma len_encode_ifd (entries : list DirectoryEntry) :
  len (encode_ifd little entries) = 2 + 12 * N.of_nat (List.length entries).
Proof.
  unfold encode_ifd. now rewrite len_app, len_pack, len_encode_entries.
Qed.

Lemma entry_at_encoded (e : DirectoryEntry)
      (pre rest : list byte) :
  entry_in_range e = true ->
  entry_at little (pre ++ encode_entry little e ++ rest) (len pre)
  = (e, len pre + 12).
Proof.
  intros Hr. unfold entry_in_range in Hr.
  apply andb_true_iff in Hr as [Hr Hv]. apply andb_true_iff in Hr as [Hr Hc].
  apply andb_true_iff in Hr as [Ht Hf].
  unfold encode_entry. rewrite <- !app_assoc.
  set (p1 := pack little 2 (tag e)). set (p2 := pack little 2 (field_type e)).
  set (p3 := pack little 4 (count e)). set (p4 := pack little 4 (value_or_offset e)).
  set (c := pre ++ p1 ++ p2 ++ p3 ++ p4 ++ rest).
  assert (L1 : len p1 = 2) by apply len_pack.
  assert (L2 : len p2 = 2) by apply len_pack.
  assert (L3 : len p3 = 4) by apply len_pack.
  destruct (packed16_at (tag e) pre (p2 ++ p3 ++ p4 ++ rest) (len pre)
              eq_refl Ht) as [V1 A1].
  fold p1 c in V1, A1.
  assert (E2 : c = (pre ++ p1) ++ p2 ++ p3 ++ p4 ++ rest)
    by (unfold c; now rewrite <- app_assoc).
  destruct (packed16_at (field_type e) (pre ++ p1) (p3 ++ p4 ++ rest)
              (len pre + 2)) as [V2 A2];
    [rewrite len_app, L1; reflexivity | exact Hf |].
  fold p2 in V2, A2. rewrite <- E2 in V2, A2.
  assert (E3 : c = (pre ++ p1 ++ p2) ++ p3 ++ p4 ++ rest)
    by (unfold c; now rewrite <- !app_assoc).
  destruct (packed32_at (count e) (pre ++ p1 ++ p2) (p4 ++ rest)
              (len pre + 2 + 2)) as [V3 A3];
    [rewrite !len_app, L1, L2; lia | exact Hc |].
  fold p3 in V3, A3. rewrite <- E3 in V3, A3.
  assert (E4 : c = (pre ++ p1 ++ p2 ++ p3) ++ p4 ++ rest)
    by (unfold c; now rewrite <- !app_assoc).
  destruct (packed32_at (value_or_offset e) (pre ++ p1 ++ p2 ++ p3) rest
              (len pre + 2 + 2 + 4)) as [V4 A4];
    [rewrite !len_app, L1, L2, L3; lia | exact Hv |].
  fold p4 in V4, A4. rewrite <- E4 in V4, A4.
  unfold entry_at. rewrite A1, A2, A3, A4, V1, V2, V3, V4.
  destruct e; cbn. f_equal. lia.
Qed.

Lemma entries_at_encoded (entries : list DirectoryEntry)
      (pre rest : list byte) :
  forallb entry_in_range entries = true ->
  entries_at little (pre ++ flat_map (encode_entry little) entries ++ rest)
             (len pre) (List.length entries)
  = entries.
Proof.
  revert pre; induction entries as [|e es IH]; intros pre Hr; [reflexivity|].
  cbn [forallb] in Hr. apply andb_true_iff in Hr as [He Hes].
  cbn [flat_map List.length entries_at]. rewrite <- app_assoc.
  rewrite (entry_at_encoded e pre _ He).
  f_equal.
  rewrite <- (len_encode_entry e), <- len_app, app_assoc.
  apply IH. exact Hes.
Qed.

Lemma directory_at_encoded (entries : list DirectoryEntry)
      (pre rest : list byte) :
  (N.of_nat (List.length entries) <? 65536) = true ->
  forallb entry_in_range entries = true ->
  entry_count little (pre ++ encode_ifd little entries ++ rest) (len pre)
  = N.of_nat (List.length entries)
  /\ directory_at little (pre ++ encode_ifd little entries ++ rest) (len pre)
     = entries.
Proof.
  intros Hn Hr. unfold directory_at, entry_count, encode_ifd.
  rewrite <- app_assoc.
  destruct (packed16_at (N.of_nat (List.length entries)) pre
              (flat_map (encode_entry little) entries ++ rest) (len pre)
              eq_refl Hn) as [V A].
  rewrite V, A, Nat2N.id. split; [reflexivity|].
  replace (len pre + 2)
    with (len (pre ++ pack little 2 (N.of_nat (List.length entries))))
    by (rewrite len_app, len_pack; reflexivity).
  rewrite app_assoc.
  apply entries_at_encoded. exact Hr.
Qed.

(** ** The two encodings of a logical structure *)

Lemma header_of_encode (t : LogicalTiff) :
  header_of (encode little t) = Some (little, 8).
Proof.
  unfold encode.
  set (rest := encode_ifd little (root_ifd t) ++ encode_ifd little (exif_ifd t)
               ++ data_area t).
  set (m := if little then b_II else b_MM).
  assert (Lm : len m = 2) by (unfold m; destruct little; reflexivity).
  assert (Hm : slice (m ++ pack little 2 42 ++ pack little 4 8 ++ rest) 0 2 = m).
  { unfold m. destruct little;
      [exact (slice_app [] b_II _) | exact (slice_app [] b_MM _)]. }
  destruct (packed16_at 42 m (pack little 4 8 ++ rest) 2
              (eq_sym Lm) eq_refl) as [V A].
  destruct (packed32_at 8 (m ++ pack little 2 42) rest (2 + 2)) as [V' _];
    [rewrite len_app, Lm, len_pack; reflexivity | reflexivity |].
  rewrite <- app_assoc in V'.
  assert (B : byte_order_of (m ++ pack little 2 42 ++ pack little 4 8 ++ rest)
              = Some little).
  { unfold byte_order_of. rewrite Hm. unfold m. destruct little; reflexivity. }
  unfold header_of. rewrite B, V, A, V'. reflexivity.
Qed.

Lemma ifds_of_encode (t : LogicalTiff) :
  well_formed t = true ->
  (entry_count little (encode little t) 8 = N.of_nat (List.length (root_ifd t))
   /\ directory_at little (encode little t) 8 = root_ifd t)
  /\ (entry_count little (encode little t) (exif_offset_of t)
      = N.of_nat (List.length (exif_ifd t))
      /\ directory_at little (encode little t) (exif_offset_of t) = exif_ifd t).
Proof.
  unfold well_formed. intros H.
  repeat (apply andb_true_iff in H as [H ?]).
  set (m := if little then b_II else b_MM).
  assert (Lm : len m = 2) by (unfold m; destruct little; reflexivity).
  set (h := m ++ pack little 2 42 ++ pack little 4 8).
  assert (Lh : len h = 8)
    by (unfold h; rewrite !len_app, !len_pack, Lm; reflexivity).
  split.
  - assert (E : encode little t
                = h ++ encode_ifd little (root_ifd t)
                    ++ (encode_ifd little (exif_ifd t) ++ data_area t))
      by (unfold encode, h; fold m; now rewrite <- !app_assoc).
    rewrite E, <- Lh. apply directory_at_encoded; assumption.
  - assert (E : encode little t
                = (h ++ encode_ifd little (root_ifd t))
                    ++ encode_ifd little (exif_ifd t) ++ data_area t)
      by (unfold encode, h; fold m; now rewrite <- !app_assoc).
    assert (L : len (h ++ encode_ifd little (root_ifd t)) = exif_offset_of t)
      by (rewrite len_app, Lh, len_encode_ifd; unfold exif_offset_of; lia).
    rewrite E, <- L. apply directory_at_encoded; assumption.
Qed.

Lemma payload_of_encode (t : LogicalTiff) (e : DirectoryEntry) :
  data_offset_of t <= value_or_offset e ->
  payload_of (encode little t) e
  = slice (data_area t) (value_or_offset e - data_offset_of t) (count e).
Proof.
  intros Hv. unfold payload_of.
  set (m := if little then b_II else b_MM).
  assert (Lm : len m = 2) by (unfold m; destruct little; reflexivity).
  set (pre := m ++ pack little 2 42 ++ pack little 4 8
              ++ encode_ifd little (root_ifd t) ++ encode_ifd little (exif_ifd t)).
  assert (E : encode little t = pre ++ data_area t)
    by (unfold encode, pre; fold m; now rewrite <- !app_assoc).
  assert (L : len pre = data_offset_of t).
  { unfold pre. rewrite !len_app, !len_pack, !len_encode_ifd, Lm.
    unfold data_offset_of, exif_offset_of. lia. }
  rewrite E.
  replace (value_or_offset e)
    with (len pre + (value_or_offset e - data_offset_of t)) at 1 by lia.
  apply slice_past.
Qed.

Lemma first_some_ext_in {A B} (g h : A -> option B) (l : list A) :
  (forall a, In a l -> g a = h a) -> first_some g l = first_some h l.
Proof.
  induction l as [|a rest IH]; intros H; simpl; [reflexivity|].
  rewrite (H a (or_introl eq_refl)).
  destruct (h a); [reflexivity|]. apply IH. intros b Hb. apply H. now right.
Qed.

(** What the extraction returns on either encoding of a well-formed logical
    structure can be read off the structure. *)
Lemma encode_result (interp : interpreter) (t : LogicalTiff) :
  well_formed t = true ->
  extraction_result interp (encode little t) = logical_result interp t.
Proof.
  intros Hwf.
  destruct (ifds_of_encode t Hwf) as [[Cr Dr] [Ce De]].
  unfold well_formed in Hwf.
  apply andb_true_iff in Hwf as [Hwf Hdata].
  apply andb_true_iff in Hwf as [_ Hptr].
  unfold extraction_result, logical_result.
  rewrite header_of_encode. unfold after_header, exif_pointer.
  cbn [N.eqb]. rewrite Cr, Dr.
  destruct (1000 <? N.of_nat (List.length (root_ifd t))); [reflexivity|].
  destruct (locate 34665 None (root_ifd t)) as [e|] eqn:L; [|reflexivity].
  cbn [option_map].
  unfold locate in L. apply find_some in L as [Hin Htag].
  rewrite andb_true_r in Htag.
  pose proof (proj1 (forallb_forall _ _) Hptr e Hin) as He.
  cbv beta in He. rewrite Htag in He. cbn [negb orb] in He. apply N.eqb_eq in He. rewrite He.
  replace (exif_offset_of t =? 0) with false
    by (symmetry; apply N.eqb_neq; unfold exif_offset_of; lia).
  unfold origin_json_text. rewrite Ce, De.
  destruct (100 <? N.of_nat (List.length (exif_ifd t))); [reflexivity|].
  rewrite (first_some_ext_in (origin_text (encode little t)) (logical_text t));
    [reflexivity|].
  intros a Ha. pose proof (proj1 (forallb_forall _ _) Hdata a Ha) as Hd.
  cbv beta in Hd.
  unfold origin_text, logical_text, is_application_data.
  destruct ((tag a =? 37500) && (field_type a =? 7)); [|reflexivity].
  cbn [negb orb] in Hd. apply N.leb_le in Hd.
  now rewrite payload_of_encode.
Qed.

End Encoding.

(** C4.  A logical directory structure (entries in range, the EXIF pointer
    naming the EXIF IFD, application-data values in the data area) gives the
    same extraction result whether it is encoded little-endian under [II] or
    big-endian under [MM]. *)
Theorem byte_order_independence
        (interp : interpreter) (fs_le fs_be : filesystem) (reader_le reader_be : TIFFAstroReader)
        (t : LogicalTiff) :
  well_formed t = true ->
  fs_le (filename reader_le) = Some (encode true t) ->
  fs_be (filename reader_be) = Some (encode false t) ->
  fst (extract_astronomical_metadata interp fs_le reader_le)
  = fst (extract_astronomical_metadata interp fs_be reader_be).
Proof.
  intros Hwf Hle Hbe.
  rewrite (extract_astronomical_metadata_eq _ _ _ _ Hle).
  rewrite (extract_astronomical_metadata_eq _ _ _ _ Hbe).
  now rewrite !encode_result.
Qed.

Lemma byte_order_independence_witness :
  fst (extract_astronomical_metadata cpython (holding (encode true m42_tiff)) any_reader)
  = fst (extract_astronomical_metadata cpython (holding (encode false m42_tiff)) any_reader).
Proof.
  apply (byte_order_independence cpython (holding (encode true m42_tiff))
           (holding (encode false m42_tiff)) any_reader any_reader m42_tiff);
    reflexivity.
Defined.

(** ** The decoder never runs out of fuel *)

Lemma consumes_scan_map {A B} (g : A -> B) (s : string) (x : scan A) :
  consumes s x -> consumes s (scan_map g x).
Proof. destruct x; exact (fun H => H). Qed.

Lemma consumes_longer {A} (s s' : string) (x : scan A) :
  consumes s x -> (String.length s <= String.length s')%nat -> consumes s' x.
Proof. destruct x; simpl; [lia|auto|auto|auto]. Qed.

Lemma skip_ws_length (s : string) :
  (String.length (skip_ws s) <= String.length s)%nat.
Proof.
  induction s as [|c r IH]; simpl; [lia|].
  destruct (is_ws c); simpl; lia.
Qed.

Ltac break_match :=
  match goal with
  | |- context [match ?x with _ => _ end] =>
      match type of x with
      | sumbool _ _ => fail 1
      | _ => destruct x eqn:?
      end
  end.

Lemma scanstring_consumes_upto (n : nat) (s : string) :
  (String.length s <= n)%nat -> consumes s (scanstring s).
Proof.
  revert s; induction n as [|n IH]; intros s Hn; destruct s as [|c r];
    try exact I; cbn [String.length] in Hn; [lia|].
  assert (Hrec : forall x r', (String.length r' <= String.length r)%nat ->
                              consumes (String c r) (scan_map (cons x) (scanstring r'))).
  { intros x r' Hr. apply consumes_scan_map.
    apply (consumes_longer r'); [apply IH; lia | cbn [String.length]; lia]. }
  cbn [scanstring].
  repeat break_match; try exact I; subst;
    try (apply Hrec; cbn [String.length]; lia).
  cbn [consumes String.length]. lia.
Qed.

Lemma scanstring_consumes (s : string) : consumes s (scanstring s).
Proof. apply (scanstring_consumes_upto (String.length s)). lia. Qed.

Lemma raise_errmsg_consumes {A} (interp : interpreter) (room : nat) (s : string) :
  consumes s (@raise_errmsg A interp room).
Proof. unfold raise_errmsg. destruct (Nat.ltb _ _); exact I. Qed.

Lemma scanstring_unicode_consumes (interp : interpreter) (room : nat) (s : string) :
  consumes s (scanstring_unicode interp room s).
Proof.
  unfold scanstring_unicode. pose proof (scanstring_consumes s) as H.
  destruct (scanstring s); try exact H. apply raise_errmsg_consumes.
Qed.

Lemma scanstring_unicode_scanned (interp : interpreter) (room : nat)
      (s : string) (a : pystr) (r : string) :
  scanstring_unicode interp room s = Scanned a r -> scanstring s = Scanned a r.
Proof.
  unfold scanstring_unicode, raise_errmsg.
  destruct (scanstring s); try (intros H; exact H).
  destruct (Nat.ltb _ _); discriminate.
Qed.

Ltac error_case := first [exact I | apply raise_errmsg_consumes].

Lemma strip_prefix_length (p s r : string) :
  strip_prefix p s = Some r ->
  String.length s = (String.length p + String.length r)%nat.
Proof.
  revert s; induction p as [|a p IH]; intros s; simpl.
  - intros H; now inversion H.
  - destruct s as [|b s]; [discriminate|].
    destruct (Ascii.eqb a b); [|discriminate].
    intros H. simpl. now rewrite (IH _ H).
Qed.

Lemma span_digits_length (s : string) :
  (String.length (snd (span_digits s)) <= String.length s)%nat.
Proof.
  induction s as [|c r IH]; simpl; [lia|].
  destruct (is_digit c); [|simpl; lia].
  destruct (span_digits r); simpl in *. lia.
Qed.

Lemma match_integer_length (s integer r : string) :
  match_integer s = Some (integer, r) ->
  (String.length r < String.length s)%nat.
Proof.
  unfold match_integer.
  assert (Hd : forall d r0 sign,
             (if is_char 48 d
              then Some (String.append sign (String d EmptyString), r0)
              else if is_digit d
                   then let (ds, r') := span_digits r0 in
                        Some (String.append sign (String d ds), r')
                   else None) = Some (integer, r) ->
             (String.length r <= String.length r0)%nat).
  { intros d r0 sign. destruct (is_char 48 d).
    - intros H; inversion H; subst; lia.
    - destruct (is_digit d); [|discriminate].
      pose proof (span_digits_length r0) as L.
      destruct (span_digits r0) as [ds r']. intros H; inversion H; subst.
      exact L. }
  destruct s as [|c s']; [discriminate|].
  destruct (is_char 45 c).
  - destruct s' as [|d r0]; [discriminate|].
    intros H. apply Hd in H. simpl. lia.
  - intros H. apply Hd in H. simpl. lia.
Qed.

Lemma match_frac_length (s : string) :
  (String.length (snd (match_frac s)) <= String.length s)%nat.
Proof.
  unfold match_frac. destruct s as [|c r]; [simpl; lia|].
  destruct (is_char 46 c); [|simpl; lia].
  pose proof (span_digits_length r) as L.
  destruct (span_digits r) as [[|d ds] r']; simpl in *; lia.
Qed.

Lemma match_exp_length (s : string) :
  (String.length (snd (match_exp s)) <= String.length s)%nat.
Proof.
  unfold match_exp. destruct s as [|c r]; [simpl; lia|].
  destruct (is_char 101 c || is_char 69 c); [|simpl; lia].
  destruct r as [|g r0].
  - simpl. lia.
  - destruct (is_char 45 g || is_char 43 g).
    + pose proof (span_digits_length r0) as L.
      destruct (span_digits r0) as [[|d ds] r']; simpl in *; lia.
    + pose proof (span_digits_length (String g r0)) as L.
      destruct (span_digits (String g r0)) as [[|d ds] r']; simpl in *; lia.
Qed.

Lemma match_number_length (s : string) (v : json) (r : string) :
  match_number s = Some (v, r) -> (String.length r < String.length s)%nat.
Proof.
  unfold match_number.
  destruct (match_integer s) as [[integer r0]|] eqn:Hi; [|discriminate].
  apply match_integer_length in Hi.
  pose proof (match_frac_length r0) as Lf.
  destruct (match_frac r0) as [frac r1].
  pose proof (match_exp_length r1) as Le.
  destruct (match_exp r1) as [exp r2]. simpl in Lf, Le.
  destruct frac; [destruct exp|]; intros H; inversion H; subst; lia.
Qed.

Lemma scan_constant_consumes (interp : interpreter) (s : string) :
  consumes s (scan_constant interp s).
Proof.
  unfold scan_constant.
  repeat match goal with
         | |- context [strip_prefix ?p s] =>
             let E := fresh "E" in
             destruct (strip_prefix p s) eqn:E;
             [apply strip_prefix_length in E; simpl in E |- *; lia|]
         | |- context [match_number s] =>
             let E := fresh "E" in
             destruct (match_number s) as [[v ?]|] eqn:E;
             [apply match_number_length in E;
              destruct v; try exact E;
              destruct (int_refused interp s); [exact I|exact E]|]
         end.
  exact I.
Qed.

Lemma scanners_consume (interp : interpreter) (fuel : nat) :
  (forall room s, (2 * String.length s < fuel)%nat ->
                  consumes s (scan_once interp room fuel s))
  /\ (forall room pairs s, (2 * String.length s < fuel)%nat ->
                           consumes s (JSONObject interp room fuel pairs s))
  /\ (forall room values s, (2 * String.length s + 1 < fuel)%nat ->
                            consumes s (JSONArray interp room fuel values s)).
Proof.
  induction fuel as [|k [IH1 [IH2 IH3]]].
  - repeat split; intros; lia.
  - split; [|split].
    + intros room s Hs. destruct s as [|c r]; [error_case|].
      cbn [scan_once]. cbn [String.length] in Hs.
      destruct (is_char 34 c).
      { apply consumes_scan_map.
        apply (consumes_longer r); [apply scanstring_unicode_consumes | simpl; lia]. }
      pose proof (skip_ws_length r) as W.
      destruct (is_char 123 c).
      { destruct room as [|inner]; [error_case|].
        destruct (skip_ws r) as [|q r1]; [error_case|]. cbn [String.length] in W.
        destruct (is_char 125 q); [simpl; lia|].
        destruct (is_char 34 q); [|error_case].
        apply (consumes_longer r1); [apply IH2; lia | simpl; lia]. }
      destruct (is_char 91 c); [|apply scan_constant_consumes].
      destruct room as [|inner]; [error_case|].
      destruct (skip_ws r) as [|q r1]; [error_case|].
      destruct (is_char 93 q); [simpl in *; lia|].
      apply (consumes_longer (String q r1)); [apply IH3; lia | simpl in *; lia].
    + intros room pairs s Hs. cbn [JSONObject].
      pose proof (scanstring_unicode_consumes interp room s) as Hk.
      destruct (scanstring_unicode interp room s) as [key r| | |e];
        [|error_case|exact Hk|error_case].
      cbn [consumes] in Hk.
      pose proof (skip_ws_length r) as W1.
      destruct (skip_ws r) as [|colon r1]; [error_case|]. cbn [String.length] in W1.
      destruct (is_char 58 colon); [|error_case].
      pose proof (skip_ws_length r1) as W2.
      assert (Hv : consumes (skip_ws r1) (scan_once interp room k (skip_ws r1)))
        by (apply IH1; lia).
      destruct (scan_once interp room k (skip_ws r1)) as [value r2| | |e];
        [|error_case|exact Hv|error_case].
      cbn [consumes] in Hv.
      pose proof (skip_ws_length r2) as W3.
      destruct (skip_ws r2) as [|nextchar r3]; [error_case|].
      cbn [String.length] in W3.
      destruct (is_char 125 nextchar); [cbn [consumes]; lia|].
      destruct (is_char 44 nextchar); [|error_case].
      pose proof (skip_ws_length r3) as W4.
      destruct (skip_ws r3) as [|q r4]; [error_case|]. cbn [String.length] in W4.
      destruct (is_char 34 q); [|error_case].
      apply (consumes_longer r4); [apply IH2; lia | lia].
    + intros room values s Hs. cbn [JSONArray].
      assert (Hv : consumes s (scan_once interp room k s)) by (apply IH1; lia).
      destruct (scan_once interp room k s) as [value r| | |e];
        [|error_case|exact Hv|error_case].
      cbn [consumes] in Hv.
      pose proof (skip_ws_length r) as W1.
      destruct (skip_ws r) as [|nextchar r1]; [error_case|].
      cbn [String.length] in W1.
      destruct (is_char 93 nextchar); [cbn [consumes]; lia|].
      destruct (is_char 44 nextchar); [|error_case].
      pose proof (skip_ws_length r1) as W2.
      apply (consumes_longer (skip_ws r1)); [apply IH3; lia | lia].
Qed.

(** [decode] gives every text a value or an exception: the fuel it hands to
    [scan_once] is never used up. *)
Lemma decode_fuel (interp : interpreter) (s : string) : decode interp s <> NoFuel.
Proof.
  unfold decode.
  pose proof (skip_ws_length s) as W.
  assert (H : consumes (skip_ws s)
                (scan_once interp (nesting_room interp)
                   (S (2 * String.length s)) (skip_ws s)))
    by (apply scanners_consume; lia).
  destruct (scan_once _ _ _ _) as [obj r| | |e];
    [|discriminate|destruct H|discriminate].
  destruct (skip_ws r); discriminate.
Qed.

(** [json.loads] returns the parsed document, or raises [JSONDecodeError]
    because [decode] did, or raises the exception of a limit of the
    interpreter. *)
Lemma json_loads_spec (interp : interpreter) (text : string) (w : world) :
  (exists document rest,
      decode interp text = Scanned document rest
      /\ json_loads interp text w = (Ret document, w))
  \/ (decode interp text = DecodeError
      /\ json_loads interp text w = (Raise JSONDecodeError, w))
  \/ (exists e, decode interp text = LimitError e
                /\ json_loads interp text w = (Raise e, w)).
Proof.
  unfold json_loads, loads_outcome. pose proof (decode_fuel interp text) as F.
  destruct (decode interp text) as [document rest| | |e];
    [left|right; left|congruence|right; right]; eauto.
Qed.

(** Well-formedness is needed: when the payload range overlaps a directory
    field, the byte the payload starts with depends on the byte order, and so
    does the result. *)
Lemma overlapping_payload_depends_on_byte_order :
  well_formed overlapping_tiff = false
  /\ extraction_result cpython (encode true overlapping_tiff)
     = loads_returned cpython (decode_text m42_payload)
  /\ extraction_result cpython (encode false overlapping_tiff) = Ret None.
Proof. repeat split; vm_compute; reflexivity. Qed.

(** ** What the scans leave behind *)

Lemma after_read_bounds (width : N) (bytes : list byte) (p : N) :
  p <= after_read width bytes p <= p + width.
Proof. unfold after_read. rewrite len_slice. lia. Qed.

Lemma scan_ifd_loop_cursor (n : nat) (w : world) :
  exists r p,
    scan_ifd_loop n w = (Ret r, at_pos w p)
    /\ cursor w <= p <= cursor w + 12 * N.of_nat n.
Proof.
  revert w; induction n as [|n IH]; intros w.
  - exists None, (cursor w). rewrite at_pos_cursor. split; [reflexivity|lia].
  - cbn [scan_ifd_loop]. run_reads.
    set (p1 := after_read 2 (bytes_of w) (cursor w)).
    set (p2 := after_read 2 (bytes_of w) p1).
    set (p3 := after_read 4 (bytes_of w) p2).
    set (p4 := after_read 4 (bytes_of w) p3).
    pose proof (after_read_bounds 2 (bytes_of w) (cursor w)) as B1.
    pose proof (after_read_bounds 2 (bytes_of w) p1) as B2.
    pose proof (after_read_bounds 4 (bytes_of w) p2) as B3.
    pose proof (after_read_bounds 4 (bytes_of w) p3) as B4.
    fold p1 in B1. fold p2 in B2. fold p3 in B3. fold p4 in B4.
    match goal with |- context [if ?c then _ else _] => destruct c end.
    + eexists; exists p4. split; [reflexivity|lia].
    + destruct (IH (at_pos w p4)) as [r [p [Hp Hb]]]. rewrite Hp.
      exists r, p. rewrite at_pos_at_pos. split; [reflexivity|].
      rewrite cursor_at_pos in Hb. lia.
Qed.

Lemma scan_exif_loop_cursor (n : nat) (w : world) :
  exists r p,
    scan_exif_loop n w = (Ret r, at_pos w p)
    /\ cursor w <= p <= cursor w + 12 * N.of_nat n.
Proof.
  revert w; induction n as [|n IH]; intros w.
  - exists None, (cursor w). rewrite at_pos_cursor. split; [reflexivity|lia].
  - cbn [scan_exif_loop]. run_reads.
    set (p1 := after_read 2 (bytes_of w) (cursor w)).
    set (p2 := after_read 2 (bytes_of w) p1).
    set (p3 := after_read 4 (bytes_of w) p2).
    set (p4 := after_read 4 (bytes_of w) p3).
    pose proof (after_read_bounds 2 (bytes_of w) (cursor w)) as B1.
    pose proof (after_read_bounds 2 (bytes_of w) p1) as B2.
    pose proof (after_read_bounds 4 (bytes_of w) p2) as B3.
    pose proof (after_read_bounds 4 (bytes_of w) p3) as B4.
    fold p1 in B1. fold p2 in B2. fold p3 in B3. fold p4 in B4.
    assert (Hrest : exists r p,
               scan_exif_loop n (at_pos w p4) = (Ret r, at_pos w p)
               /\ cursor w <= p <= cursor w + 12 * N.of_nat (S n)).
    { destruct (IH (at_pos w p4)) as [r [p [Hp Hb]]].
      exists r, p. rewrite Hp, at_pos_at_pos. split; [reflexivity|].
      rewrite cursor_at_pos in Hb. lia. }
    match goal with |- context [if ?c then _ else _] => destruct c end;
      [|exact Hrest].
    run_reads.
    match goal with |- context [looks_like_origin_json ?t] =>
      destruct (looks_like_origin_json t) end; [|exact Hrest].
    eexists; exists p4. split; [reflexivity|lia].
Qed.

(** X11.  Neither scan reads more of a directory than its sanity limit
    allows, and neither changes the file or the reader: the root scan leaves
    the cursor within [2 + 12 * 1000] bytes of the offset it was given (and
    does not move it at all for offset 0), the EXIF scan within
    [2 + 12 * 100] bytes, wherever the payload reads in between went. *)
Theorem directory_scans_bounded (offset : N) (w : world) :
  (exists r p,
      scan_ifd_for_exif offset w = (Ret r, at_pos w p)
      /\ (offset = 0 -> p = cursor w)
      /\ (offset <> 0 -> offset <= p <= offset + 12002))
  /\ (exists r p,
         scan_exif_for_origin_data offset w = (Ret r, at_pos w p)
         /\ offset <= p <= offset + 1202).
Proof.
  split.
  - unfold scan_ifd_for_exif. destruct (N.eqb_spec offset 0) as [E|E].
    + exists None, (cursor w). rewrite at_pos_cursor.
      split; [reflexivity|]. split; [reflexivity|contradiction].
    + run_reads.
      pose proof (after_read_bounds 2 (bytes_of w) offset) as B.
      destruct (N.ltb_spec 1000 (uint_at (little_of w) 2 (bytes_of w) offset))
        as [Hbig|Hsmall].
      * eexists; eexists. split; [reflexivity|]. split; [contradiction|lia].
      * match goal with |- context [scan_ifd_loop ?n ?w'] =>
          destruct (scan_ifd_loop_cursor n w') as [r [p [Hp Hb]]]; rewrite Hp end.
        exists r, p. rewrite at_pos_at_pos. split; [reflexivity|].
        split; [contradiction|]. rewrite cursor_at_pos in Hb. lia.
  - unfold scan_exif_for_origin_data. run_reads.
    pose proof (after_read_bounds 2 (bytes_of w) offset) as B.
    destruct (N.ltb_spec 100 (uint_at (little_of w) 2 (bytes_of w) offset))
      as [Hbig|Hsmall].
    + eexists; eexists. split; [reflexivity|lia].
    + match goal with |- context [scan_exif_loop ?n ?w'] =>
        destruct (scan_exif_loop_cursor n w') as [r [p [Hp Hb]]]; rewrite Hp end.
      exists r, p. rewrite at_pos_at_pos. split; [reflexivity|].
      rewrite cursor_at_pos in Hb. lia.
Qed.

(** ** The reader after an extraction *)

Lemma after_byte_order_frame (interp : interpreter) (w : world) :
  exists o p, after_byte_order interp w = (o, at_pos w p).
Proof.
  unfold after_byte_order. run_reads.
  destruct (negb _); [eexists; eexists; reflexivity|].
  run_reads.
  match goal with |- context [scan_ifd_for_exif ?o ?w'] =>
    destruct (scan_ifd_for_exif_run o w') as [p Hp]; rewrite Hp end.
  run_reads.
  destruct (exif_pointer _ _ _) as [exif_offset|]; [|eexists; eexists; reflexivity].
  destruct (exif_offset =? 0); [eexists; eexists; reflexivity|].
  run_reads.
  match goal with |- context [scan_exif_for_origin_data ?o ?w'] =>
    destruct (scan_exif_for_origin_data_run o w') as [q Hq]; rewrite Hq end.
  run_reads.
  destruct (origin_json_text _ _ _) as [[|c text]|];
    try (eexists; eexists; reflexivity).
  run_reads. rewrite json_loads_run.
  destruct (loads_outcome interp (String c text)); eexists; eexists; reflexivity.
Qed.

Lemma with_open_body_reader (interp : interpreter) (reader : TIFFAstroReader)
      (bytes : list byte) :
  self (snd (with_open_body interp (mkworld reader (mkfile bytes 0))))
  = match byte_order_of bytes with
    | Some little => mkreader (filename reader) little
    | None => reader
    end.
Proof.
  unfold with_open_body, byte_order_of.
  set (w := mkworld reader (mkfile bytes 0)).
  run_reads. change (bytes_of w) with bytes. change (cursor w) with 0.
  destruct (bytes_eqb (slice bytes 0 2) b_II);
    [|destruct (bytes_eqb (slice bytes 0 2) b_MM)].
  - unfold set_is_little_endian.
    match goal with |- context [after_byte_order interp ?w'] =>
      destruct (after_byte_order_frame interp w') as [o [p Hp]]; rewrite Hp end.
    reflexivity.
  - unfold set_is_little_endian.
    match goal with |- context [after_byte_order interp ?w'] =>
      destruct (after_byte_order_frame interp w') as [o [p Hp]]; rewrite Hp end.
    reflexivity.
  - reflexivity.
Qed.

(** The reader an extraction leaves: the file name it had, and the byte order
    of the file when the file could be opened and starts with a byte order
    mark. *)
Lemma reader_after_extraction (interp : interpreter) (fs : filesystem) (reader : TIFFAstroReader) :
  snd (extract_astronomical_metadata interp fs reader)
  = match fs (filename reader) with
    | None => reader
    | Some bytes =>
        match byte_order_of bytes with
        | Some little => mkreader (filename reader) little
        | None => reader
        end
    end.
Proof.
  unfold extract_astronomical_metadata, try_block.
  destruct (fs (filename reader)) as [bytes|]; [|reflexivity].
  rewrite <- (with_open_body_reader interp).
  destruct (with_open_body _ _) as [[r|e] w]; reflexivity.
Qed.

(** The result of an extraction: [None] for a file that cannot be opened,
    the value read off the bytes otherwise. *)
Lemma result_of_extraction (interp : interpreter) (fs : filesystem) (reader : TIFFAstroReader) :
  fst (extract_astronomical_metadata interp fs reader)
  = match fs (filename reader) with
    | None => Ret None
    | Some bytes => extraction_result interp bytes
    end.
Proof.
  destruct (fs (filename reader)) as [bytes|] eqn:E.
  - now apply extract_astronomical_metadata_eq.
  - now apply extract_astronomical_metadata_unreadable.
Qed.

(** X5.  After an extraction from a file that starts with a byte order mark,
    the reader's [is_little_endian] is the byte order of that file, whatever
    it was before and whatever the extraction returned; the file name is
    unchanged. *)
Theorem reader_flag_follows_byte_order
        (interp : interpreter) (fs : filesystem) (reader : TIFFAstroReader) (bytes : list byte)
        (little : bool) :
  fs (filename reader) = Some bytes ->
  byte_order_of bytes = Some little ->
  is_little_endian (snd (extract_astronomical_metadata interp fs reader)) = little
  /\ filename (snd (extract_astronomical_metadata interp fs reader)) = filename reader.
Proof.
  intros Hfs Hb. rewrite reader_after_extraction, Hfs, Hb. split; reflexivity.
Qed.

Lemma reader_flag_follows_byte_order_witness :
  is_little_endian
    (snd (extract_astronomical_metadata cpython (holding (encode false m42_tiff)) any_reader))
  = false
  /\ filename
       (snd (extract_astronomical_metadata cpython (holding (encode false m42_tiff)) any_reader))
     = filename any_reader.
Proof.
  apply (reader_flag_follows_byte_order cpython (holding (encode false m42_tiff)) any_reader
           (encode false m42_tiff) false); reflexivity.
Defined.

(** X6.  When the file cannot be opened, or does not start with [II] or
    [MM] (an empty file included), the method returns [None] and leaves the
    reader exactly as it was. *)
Theorem reader_untouched_without_byte_order
        (interp : interpreter) (fs : filesystem) (reader : TIFFAstroReader) :
  fs (filename reader) = None
  \/ (exists bytes, fs (filename reader) = Some bytes /\ byte_order_of bytes = None) ->
  extract_astronomical_metadata interp fs reader = (Ret None, reader).
Proof.
  intros H.
  rewrite (surjective_pairing (extract_astronomical_metadata interp fs reader)).
  rewrite reader_after_extraction, result_of_extraction.
  destruct H as [H|[bytes [H Hb]]]; rewrite H; [reflexivity|].
  rewrite Hb. unfold extraction_result, header_of. rewrite Hb. reflexivity.
Qed.

Lemma reader_untouched_without_byte_order_witness :
  extract_astronomical_metadata cpython (holding []) (mkreader "image.tif" false)
  = (Ret None, mkreader "image.tif" false).
Proof.
  apply (reader_untouched_without_byte_order cpython (holding []) (mkreader "image.tif" false)).
  right. exists []. split; reflexivity.
Defined.

(** X7.  Extracting again with the reader a first extraction left gives the
    same result and leaves the same reader: the flag stored by the first run
    does not change what the second one does. *)
Theorem extraction_idempotent (interp : interpreter) (fs : filesystem) (reader : TIFFAstroReader) :
  extract_astronomical_metadata interp fs (snd (extract_astronomical_metadata interp fs reader))
  = extract_astronomical_metadata interp fs reader.
Proof.
  assert (Hname : filename (snd (extract_astronomical_metadata interp fs reader))
                  = filename reader).
  { rewrite reader_after_extraction.
    destruct (fs (filename reader)) as [bytes|]; [|reflexivity].
    destruct (byte_order_of bytes); reflexivity. }
  rewrite (surjective_pairing (extract_astronomical_metadata interp fs reader)) at 2.
  rewrite (surjective_pairing
             (extract_astronomical_metadata interp fs
                (snd (extract_astronomical_metadata interp fs reader)))).
  rewrite !result_of_extraction, (reader_after_extraction interp fs (snd _)), Hname.
  f_equal. rewrite reader_after_extraction.
  destruct (fs (filename reader)) as [bytes|]; [|reflexivity].
  destruct (byte_order_of bytes); reflexivity.
Qed.

(** X8.  The value returned depends on the bytes of the file alone: two
    readers, whatever their names and endianness flags, return the same
    value for files with the same content. *)
Theorem result_independent_of_reader
        (interp : interpreter) (fs1 fs2 : filesystem) (reader1 reader2 : TIFFAstroReader)
        (bytes : list byte) :
  fs1 (filename reader1) = Some bytes ->
  fs2 (filename reader2) = Some bytes ->
  fst (extract_astronomical_metadata interp fs1 reader1)
  = fst (extract_astronomical_metadata interp fs2 reader2).
Proof.
  intros H1 H2. now rewrite !result_of_extraction, H1, H2.
Qed.

Lemma result_independent_of_reader_witness :
  fst (extract_astronomical_metadata cpython (holding (encode false m42_tiff))
                                     (mkreader "a.tif" true))
  = fst (extract_astronomical_metadata cpython (holding (encode false m42_tiff))
                                       (mkreader "b.tif" false)).
Proof.
  apply (result_independent_of_reader cpython
           (holding (encode false m42_tiff)) (holding (encode false m42_tiff))
           (mkreader "a.tif" true) (mkreader "b.tif" false)
           (encode false m42_tiff)); reflexivity.
Defined.

(** ** Absent metadata *)

Lemma find_none_forallb {A} (p : A -> bool) (l : list A) :
  forallb (fun a => negb (p a)) l = true -> find p l = None.
Proof.
  induction l as [|a rest IH]; simpl; [reflexivity|].
  destruct (p a); simpl; [discriminate|exact IH].
Qed.

(** X1.  A file with a valid header whose root IFD has no entry with tag
    34665 yields [None]. *)
Theorem no_exif_pointer_returns_none
        (interp : interpreter) (fs : filesystem) (reader : TIFFAstroReader) (bytes : list byte)
        (little : bool) (first_ifd_offset : N) :
  fs (filename reader) = Some bytes ->
  header_of bytes = Some (little, first_ifd_offset) ->
  forallb (fun e => negb (tag e =? 34665))
          (directory_at little bytes first_ifd_offset) = true ->
  fst (extract_astronomical_metadata interp fs reader) = Ret None.
Proof.
  intros Hfs Hh Hno. rewrite result_of_extraction, Hfs.
  unfold extraction_result, after_header, exif_pointer. rewrite Hh.
  destruct (first_ifd_offset =? 0); [reflexivity|].
  destruct (1000 <? _); [reflexivity|].
  assert (Hfind : locate 34665 None (directory_at little bytes first_ifd_offset)
                  = None).
  { unfold locate. revert Hno.
    induction (directory_at little bytes first_ifd_offset) as [|e rest IH];
      [reflexivity|].
    cbn [forallb find]. intros H. apply andb_true_iff in H as [He Hrest].
    destruct (tag e =? 34665); [discriminate|]. exact (IH Hrest). }
  now rewrite Hfind.
Qed.

Lemma no_exif_pointer_returns_none_witness :
  fst (extract_astronomical_metadata cpython (holding (encode false no_exif_tiff)) any_reader)
  = Ret None.
Proof.
  apply (no_exif_pointer_returns_none cpython (holding (encode false no_exif_tiff)) any_reader
           (encode false no_exif_tiff) false 8); reflexivity.
Defined.

(** X2.  Offset 0 means absent: when the header gives 0 as the first IFD
    offset, or the EXIF pointer of the root IFD is 0, the method returns
    [None]. *)
Theorem null_offsets_return_none
        (interp : interpreter) (fs : filesystem) (reader : TIFFAstroReader) (bytes : list byte)
        (little : bool) (first_ifd_offset : N) :
  fs (filename reader) = Some bytes ->
  header_of bytes = Some (little, first_ifd_offset) ->
  first_ifd_offset = 0 \/ exif_pointer little bytes first_ifd_offset = Some 0 ->
  fst (extract_astronomical_metadata interp fs reader) = Ret None.
Proof.
  intros Hfs Hh H0. rewrite result_of_extraction, Hfs.
  unfold extraction_result, after_header. rewrite Hh.
  destruct H0 as [-> | ->]; reflexivity.
Qed.

Lemma null_offsets_return_none_witness :
  fst (extract_astronomical_metadata cpython
         (holding (encode true null_exif_pointer_tiff)) any_reader) = Ret None.
Proof.
  apply (null_offsets_return_none cpython (holding (encode true null_exif_pointer_tiff))
           any_reader (encode true null_exif_pointer_tiff) true 8);
    [reflexivity | reflexivity | right; reflexivity].
Defined.

(** X4.  When every tag-37500 entry of type 7 in the EXIF IFD decodes to a
    text that lacks [StackedInfo] or lacks an opening brace, the EXIF scan
    returns [None] from every position of the file, the body of the [try]
    block returns [None] itself, so that nothing is raised and the [except]
    clause has nothing to handle, and the method returns [None], whatever
    the limits of the interpreter. *)
Theorem sniff_rejection_returns_none
        (interp : interpreter) (fs : filesystem) (reader : TIFFAstroReader) (bytes : list byte)
        (little : bool) (first_ifd_offset exif_offset : N) :
  fs (filename reader) = Some bytes ->
  header_of bytes = Some (little, first_ifd_offset) ->
  exif_pointer little bytes first_ifd_offset = Some exif_offset ->
  forallb (fun e => negb (usable bytes e))
          (directory_at little bytes exif_offset) = true ->
  (forall w, little_of w = little -> bytes_of w = bytes ->
             fst (scan_exif_for_origin_data exif_offset w) = Ret None)
  /\ fst (try_block interp fs reader) = Ret None
  /\ fst (extract_astronomical_metadata interp fs reader) = Ret None.
Proof.
  intros Hfs Hh Hp Hno.
  assert (Ho : origin_json_text little bytes exif_offset = None).
  { unfold origin_json_text. destruct (100 <? _); [reflexivity|].
    now rewrite first_some_usable, find_none_forallb. }
  split; [|split].
  - intros w Hl Hb.
    destruct (scan_exif_for_origin_data_run exif_offset w) as [p Hrun].
    rewrite Hrun, Hl, Hb, Ho. reflexivity.
  - unfold try_block. rewrite Hfs, with_open_body_run.
    unfold block_result, block_after_header. rewrite Hh, Hp.
    destruct (exif_offset =? 0); [reflexivity|]. now rewrite Ho.
  - rewrite result_of_extraction, Hfs.
    unfold extraction_result, after_header. rewrite Hh, Hp.
    destruct (exif_offset =? 0); [reflexivity|]. now rewrite Ho.
Qed.

Lemma sniff_rejection_returns_none_witness :
  (forall w, little_of w = true -> bytes_of w = encode true junk_payload_tiff ->
             fst (scan_exif_for_origin_data 22 w) = Ret None)
  /\ fst (try_block cpython (holding (encode true junk_payload_tiff)) any_reader)
     = Ret None
  /\ fst (extract_astronomical_metadata cpython
            (holding (encode true junk_payload_tiff)) any_reader)
     = Ret None.
Proof.
  apply (sniff_rejection_returns_none cpython (holding (encode true junk_payload_tiff))
           any_reader (encode true junk_payload_tiff) true 8 22);
    vm_compute; reflexivity.
Defined.

(** ** The payload that is parsed *)





(** X22.  The [except] clause names three classes and no more: when the
    text of the first usable entry makes [json.loads] raise [RecursionError]
    (brackets nested beyond the room the interpreter has) or [ValueError]
    (an integer literal over the digit limit), that exception leaves the
    method. *)
Theorem limit_errors_escape
        (interp : interpreter) (fs : filesystem) (reader : TIFFAstroReader) (bytes : list byte)
        (little : bool) (first_ifd_offset exif_offset : N) (e : DirectoryEntry)
        (raised : exn) :
  fs (filename reader) = Some bytes ->
  header_of bytes = Some (little, first_ifd_offset) ->
  exif_pointer little bytes first_ifd_offset = Some exif_offset ->
  exif_offset <> 0 ->
  entry_count little bytes exif_offset <= 100 ->
  find (usable bytes) (directory_at little bytes exif_offset) = Some e ->
  loads_outcome interp (text_of bytes e) = Raise raised ->
  raised = RecursionError \/ raised = ValueError ->
  fst (extract_astronomical_metadata interp fs reader) = Raise raised.
Proof.
  intros Hfs Hh Hp Hnz Hc Hf Hl Hr. rewrite result_of_extraction, Hfs.
  unfold extraction_result, after_header. rewrite Hh, Hp.
  apply N.eqb_neq in Hnz. rewrite Hnz.
  unfold origin_json_text. apply N.ltb_ge in Hc. rewrite Hc.
  rewrite first_some_usable, Hf. cbn [option_map].
  unfold loads_returned. rewrite Hl.
  destruct Hr as [-> | ->]; reflexivity.
Qed.

Lemma limit_errors_escape_witness :
  fst (extract_astronomical_metadata cpython (holding (encode true deep_tiff)) any_reader)
  = Raise RecursionError.
Proof.
  apply (limit_errors_escape cpython (holding (encode true deep_tiff)) any_reader
           (encode true deep_tiff) true 8 22 (mkentry 37500 7 1014 36)
           RecursionError);
    try (vm_compute; reflexivity).
  - discriminate.
  - vm_compute. discriminate.
  - left. reflexivity.
Defined.

(** An integer literal of 4301 digits: [json.loads] raises [ValueError]
    under the default limit of 4300 digits, and the method does not catch
    it. *)
Lemma long_int_payload_raises :
  fst (extract_astronomical_metadata cpython (holding (encode true long_int_tiff)) any_reader)
  = Raise ValueError.
Proof. vm_compute. reflexivity. Qed.

(** ** Files that are not TIFF files *)

Lemma with_open_body_no_header (interp : interpreter) (reader : TIFFAstroReader)
      (bytes : list byte) :
  header_of bytes = None ->
  exists w, with_open_body interp (mkworld reader (mkfile bytes 0)) = (Ret None, w)
            /\ cursor w <= 4.
Proof.
  unfold header_of, byte_order_of, with_open_body.
  set (w0 := mkworld reader (mkfile bytes 0)).
  run_reads. change (bytes_of w0) with bytes. change (cursor w0) with 0.
  pose proof (after_read_bounds 2 bytes 0) as B0.
  pose proof (after_read_bounds 2 bytes 2) as B2.
  assert (Hmark : forall m, slice bytes 0 2 = m -> len m = 2 ->
                            after_read 2 bytes 0 = 2).
  { intros m Hm Hl. unfold after_read. now rewrite Hm, Hl. }
  assert (Hstep : forall little,
             (if uint_at little 2 bytes 2 =? 42
              then Some (little, uint_at little 4 bytes (after_read 2 bytes 2))
              else None) = None ->
             exists w,
               after_byte_order interp
                 (mkworld (mkreader (filename reader) little) (mkfile bytes 2))
               = (Ret None, w) /\ cursor w <= 4).
  { intros little Hm. unfold after_byte_order. run_reads.
    cbv beta iota delta [little_of bytes_of cursor self f content pos
                         is_little_endian].
    destruct (uint_at little 2 bytes 2 =? 42); [discriminate|]. cbn [negb].
    eexists. split; [reflexivity|]. change (after_read 2 bytes 2 <= 4). lia. }
  destruct (bytes_eqb (slice bytes 0 2) b_II) eqn:EI;
    [|destruct (bytes_eqb (slice bytes 0 2) b_MM) eqn:EM].
  - intros H. apply bytes_eqb_eq in EI. rewrite (Hmark _ EI eq_refl).
    destruct (Hstep true H) as [w [Hw Hc]].
    unfold set_is_little_endian. exists w. split; [exact Hw|exact Hc].
  - intros H. apply bytes_eqb_eq in EM. rewrite (Hmark _ EM eq_refl).
    destruct (Hstep false H) as [w [Hw Hc]].
    unfold set_is_little_endian. exists w. split; [exact Hw|exact Hc].
  - intros _. eexists. split; [reflexivity|]. change (after_read 2 bytes 0 <= 4). lia.
Qed.

(** X3.  A file that does not start with [II] or [MM], or whose magic number
    under that byte order is not 42, yields [None]; the method stops inside
    the first four bytes and reads no directory. *)
Theorem not_a_tiff_returns_none
        (interp : interpreter) (fs : filesystem) (reader : TIFFAstroReader) (bytes : list byte) :
  fs (filename reader) = Some bytes ->
  header_of bytes = None ->
  fst (extract_astronomical_metadata interp fs reader) = Ret None
  /\ cursor (snd (try_block interp fs reader)) <= 4.
Proof.
  intros Hfs Hh. unfold extract_astronomical_metadata, try_block. rewrite Hfs.
  destruct (with_open_body_no_header interp reader bytes Hh) as [w [-> Hc]].
  split; [reflexivity|exact Hc].
Qed.

Lemma not_a_tiff_returns_none_witness :
  fst (extract_astronomical_metadata cpython (holding not_a_tiff_file) any_reader) = Ret None
  /\ cursor (snd (try_block cpython (holding not_a_tiff_file) any_reader)) <= 4.
Proof.
  apply (not_a_tiff_returns_none cpython (holding not_a_tiff_file) any_reader not_a_tiff_file);
    reflexivity.
Defined.

(** ** The integer reads *)

Lemma little_endian_value_bound (data : list byte) :
  little_endian_value data < 256 ^ len data.
Proof.
  unfold little_endian_value, len.
  induction data as [|b rest IH]; [reflexivity|].
  cbn [fold_right List.length]. rewrite Nat2N.inj_succ, N.pow_succ_r'.
  pose proof (Byte.to_N_bounded b). lia.
Qed.

Lemma big_endian_value_bound (data : list byte) :
  big_endian_value data < 256 ^ len data.
Proof.
  rewrite <- (rev_involutive data) at 1. rewrite big_endian_rev.
  replace (len data) with (len (rev data)) by (unfold len; now rewrite length_rev).
  apply little_endian_value_bound.
Qed.

Lemma uint_value_bound (little : bool) (width : N) (data : list byte) :
  uint_value little width data < 256 ^ width.
Proof.
  unfold uint_value. destruct (N.eqb_spec (len data) width) as [<-|_].
  - destruct little; [apply little_endian_value_bound|apply big_endian_value_bound].
  - apply N.neq_0_lt_0, N.pow_nonzero. discriminate.
Qed.

(** X9.  [read_uint16] and [read_uint32] never raise (the length test keeps
    [struct.unpack] from seeing a short buffer), return a value below 2^16,
    respectively 2^32, move the cursor forward by at most 2, respectively 4,
    and change nothing else. *)
Theorem read_uint_bounds (w : world) :
  (exists v p,
      read_uint16 w = (Ret v, at_pos w p)
      /\ v < 65536 /\ cursor w <= p <= cursor w + 2)
  /\ (exists v p,
         read_uint32 w = (Ret v, at_pos w p)
         /\ v < 4294967296 /\ cursor w <= p <= cursor w + 4).
Proof.
  split.
  - rewrite read_uint16_run. eexists; eexists. split; [reflexivity|].
    split; [apply (uint_value_bound _ 2)|apply after_read_bounds].
  - rewrite read_uint32_run. eexists; eexists. split; [reflexivity|].
    split; [apply (uint_value_bound _ 4)|apply after_read_bounds].
Qed.

Lemma after_read_short (width : N) (bytes : list byte) (p : N) :
  len bytes < p + width -> after_read width bytes p = N.max p (len bytes).
Proof. intros H. unfold after_read. rewrite len_slice. lia. Qed.

(** X10.  A read that runs into the end of the file returns 0, the value a
    stored zero would give, and leaves the cursor at the end of the file (or
    where it was, when it already stood past the end). *)
Theorem short_read_is_zero (w : world) :
  (len (bytes_of w) < cursor w + 2 ->
   read_uint16 w = (Ret 0, at_pos w (N.max (cursor w) (len (bytes_of w)))))
  /\ (len (bytes_of w) < cursor w + 4 ->
      read_uint32 w = (Ret 0, at_pos w (N.max (cursor w) (len (bytes_of w))))).
Proof.
  split; intros H.
  - rewrite read_uint16_run, uint_at_short, after_read_short by (lia || exact H).
    reflexivity.
  - rewrite read_uint32_run, uint_at_short, after_read_short by (lia || exact H).
    reflexivity.
Qed.

Lemma short_read_is_zero_witness :
  read_uint16 (at_pos (open_at_start four_byte_file) 3)
  = (Ret 0, at_pos (open_at_start four_byte_file) 4)
  /\ read_uint32 (at_pos (open_at_start four_byte_file) 2)
     = (Ret 0, at_pos (open_at_start four_byte_file) 4).
Proof.
  split.
  - apply (proj1 (short_read_is_zero (at_pos (open_at_start four_byte_file) 3))).
    vm_compute; reflexivity.
  - apply (proj2 (short_read_is_zero (at_pos (open_at_start four_byte_file) 2))).
    vm_compute; reflexivity.
Defined.

(** ** The decoded text *)

Lemma code_chr (b : byte) : code (chr b) = Byte.to_N b.
Proof.
  unfold code, chr. rewrite ascii_of_byte_via_N.
  apply N_ascii_embedding. pose proof (Byte.to_N_bounded b). lia.
Qed.

Lemma all_chars_printable (l : list byte) :
  all_chars printable_char (string_of_list_ascii (map chr (filter printable l)))
  = true.
Proof.
  induction l as [|b rest IH]; [reflexivity|].
  cbn [filter]. destruct (printable b) eqn:P; [|exact IH].
  cbn [map string_of_list_ascii all_chars]. rewrite IH, andb_true_r.
  unfold printable_char. rewrite code_chr. exact P.
Qed.

Lemma length_string_of_list_ascii (l : list ascii) :
  String.length (string_of_list_ascii l) = List.length l.
Proof. induction l as [|c rest IH]; simpl; [reflexivity|now rewrite IH]. Qed.

Lemma length_until_zero (data : list byte) :
  (List.length (until_zero data) <= List.length data)%nat.
Proof.
  induction data as [|b rest IH]; simpl; [lia|].
  destruct (Byte.to_N b =? 0); simpl; lia.
Qed.

(** X12.  The text handed to the content test and to [json.loads] holds
    printable ASCII only (codes 0x20 to 0x7E), and has at most as many
    characters as the payload has bytes. *)
Theorem decode_text_printable (data : list byte) :
  all_chars printable_char (decode_text data) = true
  /\ (String.length (decode_text data) <= List.length data)%nat.
Proof.
  unfold decode_text. rewrite decode_loop_eq. cbn [String.append].
  split; [apply all_chars_printable|].
  rewrite length_string_of_list_ascii, length_map.
  pose proof (filter_length_le printable (until_zero data)).
  pose proof (length_until_zero data). lia.
Qed.

(** ** The shape of a returned document *)

Lemma stacked_info_has_S (text : string) :
  str_in "StackedInfo" text = true -> has_char 83 text = true.
Proof.
  induction text as [|c rest IH]; [discriminate|].
  cbn [str_in has_char]. intros H. apply orb_true_iff in H as [H|H].
  - cbn [String.prefix] in H.
    destruct (ascii_dec "S" c) as [<-|_]; [reflexivity|discriminate].
  - rewrite (IH H). apply orb_true_r.
Qed.

Lemma has_char_skip (n : N) (c : ascii) (rest : string) :
  code c <> n -> has_char n (String c rest) = has_char n rest.
Proof. intros H. cbn [has_char]. apply N.eqb_neq in H. now rewrite H. Qed.

Lemma is_char_code (n : N) (c : ascii) : is_char n c = true -> code c = n.
Proof. unfold is_char. apply N.eqb_eq. Qed.

Lemma has_S_skip_ws (s : string) : has_char 83 (skip_ws s) = has_char 83 s.
Proof.
  induction s as [|c rest IH]; [reflexivity|].
  cbn [skip_ws]. destruct (is_ws c) eqn:W; [|reflexivity].
  rewrite IH. symmetry. apply has_char_skip.
  unfold is_ws in W. repeat (apply orb_true_iff in W as [W|W]);
    apply is_char_code in W; rewrite W; discriminate.
Qed.

Lemma has_S_span_digits (s : string) :
  has_char 83 (snd (span_digits s)) = has_char 83 s.
Proof.
  induction s as [|c rest IH]; [reflexivity|].
  cbn [span_digits]. destruct (is_digit c) eqn:D; [|reflexivity].
  destruct (span_digits rest) as [ds r]. cbn [snd] in *. rewrite IH.
  symmetry. apply has_char_skip. unfold is_digit in D.
  apply andb_true_iff in D as [_ D]. apply N.leb_le in D. lia.
Qed.

Lemma has_S_strip_prefix (p s r : string) :
  strip_prefix p s = Some r -> has_char 83 p = false ->
  has_char 83 s = has_char 83 r.
Proof.
  revert s; induction p as [|a p IH]; intros s; cbn [strip_prefix].
  - intros H _. now inversion H.
  - destruct s as [|b s]; [discriminate|].
    destruct (Ascii.eqb_spec a b) as [<-|_]; [|discriminate].
    cbn [has_char]. intros H Hp. apply orb_false_iff in Hp as [Ha Hp].
    rewrite Ha. cbn [orb]. now apply IH.
Qed.

Lemma has_S_match_integer (s integer r : string) :
  match_integer s = Some (integer, r) -> has_char 83 s = has_char 83 r.
Proof.
  unfold match_integer.
  assert (Hd : forall d r0 sign,
             (if is_char 48 d
              then Some (String.append sign (String d EmptyString), r0)
              else if is_digit d
                   then let (ds, r') := span_digits r0 in
                        Some (String.append sign (String d ds), r')
                   else None) = Some (integer, r) ->
             has_char 83 (String d r0) = has_char 83 r).
  { intros d r0 sign. destruct (is_char 48 d) eqn:Z.
    - intros H; inversion H; subst. apply has_char_skip.
      apply is_char_code in Z. rewrite Z. discriminate.
    - destruct (is_digit d) eqn:D; [|discriminate].
      pose proof (has_S_span_digits r0) as L.
      destruct (span_digits r0) as [ds r']. intros H; inversion H; subst.
      cbn [snd] in L. rewrite L. apply has_char_skip.
      unfold is_digit in D. apply andb_true_iff in D as [_ D].
      apply N.leb_le in D. lia. }
  destruct s as [|c s']; [discriminate|].
  destruct (is_char 45 c) eqn:M.
  - destruct s' as [|d r0]; [discriminate|].
    intros H. apply Hd in H. rewrite <- H. apply has_char_skip.
    apply is_char_code in M. rewrite M. discriminate.
  - apply Hd.
Qed.

Lemma has_S_match_frac (s : string) :
  has_char 83 (snd (match_frac s)) = has_char 83 s.
Proof.
  unfold match_frac. destruct s as [|c r]; [reflexivity|].
  destruct (is_char 46 c) eqn:D; [|reflexivity].
  pose proof (has_S_span_digits r) as L.
  destruct (span_digits r) as [[|d ds] r']; [reflexivity|].
  cbn [snd] in *. rewrite L. symmetry. apply has_char_skip.
  apply is_char_code in D. rewrite D. discriminate.
Qed.

Lemma has_S_match_exp (s : string) :
  has_char 83 (snd (match_exp s)) = has_char 83 s.
Proof.
  unfold match_exp. destruct s as [|c r]; [reflexivity|].
  destruct (is_char 101 c || is_char 69 c) eqn:E; [|reflexivity].
  assert (Hc : code c <> 83).
  { apply orb_true_iff in E as [E|E]; apply is_char_code in E; rewrite E;
      discriminate. }
  destruct r as [|g r0]; [reflexivity|].
  destruct (is_char 45 g || is_char 43 g) eqn:G.
  - assert (Hg : code g <> 83).
    { apply orb_true_iff in G as [G|G]; apply is_char_code in G; rewrite G;
        discriminate. }
    pose proof (has_S_span_digits r0) as L.
    destruct (span_digits r0) as [[|d ds] r']; [reflexivity|].
    cbn [snd] in *. now rewrite L, !has_char_skip.
  - pose proof (has_S_span_digits (String g r0)) as L.
    destruct (span_digits (String g r0)) as [[|d ds] r']; [reflexivity|].
    cbn [snd] in *. rewrite L. symmetry. now apply has_char_skip.
Qed.

Lemma has_S_match_number (s : string) (v : json) (r : string) :
  match_number s = Some (v, r) -> has_char 83 s = has_char 83 r.
Proof.
  unfold match_number.
  destruct (match_integer s) as [[integer r0]|] eqn:Hi; [|discriminate].
  apply has_S_match_integer in Hi.
  pose proof (has_S_match_frac r0) as Lf.
  destruct (match_frac r0) as [frac r1].
  pose proof (has_S_match_exp r1) as Le.
  destruct (match_exp r1) as [exp r2]. cbn [snd] in Lf, Le.
  destruct frac; [destruct exp|]; intros H; inversion H; subst; congruence.
Qed.

Lemma has_S_scan_constant (interp : interpreter) (s : string) (v : json) (r : string) :
  scan_constant interp s = Scanned v r -> has_char 83 s = has_char 83 r.
Proof.
  unfold scan_constant.
  repeat match goal with
         | |- context [strip_prefix ?p s] =>
             let E := fresh "E" in
             destruct (strip_prefix p s) eqn:E;
             [intros H; inversion H; subst;
              apply (has_S_strip_prefix _ _ _ E); reflexivity|]
         | |- context [match_number s] =>
             let E := fresh "E" in
             destruct (match_number s) as [[x ?]|] eqn:E;
             [destruct x; try destruct (int_refused interp s);
              intros H; inversion H; subst;
              apply (has_S_match_number _ _ _ E)|]
         end.
  discriminate.
Qed.

Lemma scan_map_cons_not_empty (x : N) (y : scan pystr) (r : string) :
  scan_map (cons x) y <> Scanned [] r.
Proof. destruct y; discriminate. Qed.

Lemma scanstring_empty (s r : string) :
  scanstring s = Scanned [] r ->
  exists q, s = String q r /\ is_char 34 q = true.
Proof.
  destruct s as [|c s']; [discriminate|]. cbn [scanstring].
  destruct (is_char 34 c) eqn:Q.
  - intros H; inversion H; subst. now exists c.
  - repeat break_match; intros H; try discriminate;
      now apply scan_map_cons_not_empty in H.
Qed.

Lemma nonempty_snoc_object (pairs : list (pystr * json)) (x : pystr * json) :
  nonempty_container (JObject (pairs ++ [x])) = true.
Proof. destruct pairs; reflexivity. Qed.

Lemma nonempty_snoc_array (values : list json) (x : json) :
  nonempty_container (JArray (values ++ [x])) = true.
Proof. destruct values; reflexivity. Qed.

Lemma JSONObject_nonempty (interp : interpreter) (room fuel : nat)
      (pairs : list (pystr * json)) (s : string) (v : json) (r : string) :
  JSONObject interp room fuel pairs s = Scanned v r -> nonempty_container v = true.
Proof.
  revert pairs s; induction fuel as [|k IH]; intros pairs s; [discriminate|].
  cbn [JSONObject]. unfold raise_errmsg.
  repeat break_match; intros H; try discriminate.
  - inversion H; subst. apply nonempty_snoc_object.
  - eapply IH; eassumption.
Qed.

Lemma JSONArray_nonempty (interp : interpreter) (room fuel : nat)
      (values : list json) (s : string) (v : json) (r : string) :
  JSONArray interp room fuel values s = Scanned v r -> nonempty_container v = true.
Proof.
  revert values s; induction fuel as [|k IH]; intros values s; [discriminate|].
  cbn [JSONArray]. unfold raise_errmsg.
  repeat break_match; intros H; try discriminate.
  - inversion H; subst. apply nonempty_snoc_array.
  - eapply IH; eassumption.
Qed.

Lemma has_S_scan_once (interp : interpreter) (room fuel : nat)
      (s : string) (v : json) (r : string) :
  scan_once interp room fuel s = Scanned v r ->
  nonempty_container v = false ->
  has_char 83 s = has_char 83 r.
Proof.
  destruct fuel as [|k]; [discriminate|].
  destruct s as [|c s']; [discriminate|]. cbn [scan_once].
  destruct (is_char 34 c) eqn:Q.
  { apply is_char_code in Q.
    destruct (scanstring_unicode interp room s') as [a r0| | |e] eqn:E;
      try discriminate.
    cbn [scan_map]. intros H Hv; inversion H; subst.
    destruct a as [|x a]; [|discriminate].
    apply scanstring_unicode_scanned in E.
    apply scanstring_empty in E as [q [-> Hq]]. apply is_char_code in Hq.
    rewrite !has_char_skip by (rewrite ?Q, ?Hq; discriminate). reflexivity. }
  destruct (is_char 123 c) eqn:B.
  { apply is_char_code in B.
    rewrite (has_char_skip 83 c s') by (rewrite B; discriminate).
    rewrite <- (has_S_skip_ws s').
    destruct room as [|inner]; [discriminate|].
    destruct (skip_ws s') as [|q r1];
      [unfold raise_errmsg; destruct (Nat.ltb _ _); discriminate|].
    destruct (is_char 125 q) eqn:C.
    - apply is_char_code in C. intros H _; inversion H; subst.
      apply has_char_skip. rewrite C. discriminate.
    - destruct (is_char 34 q);
        [|unfold raise_errmsg; destruct (Nat.ltb _ _); discriminate].
      intros H Hv. apply JSONObject_nonempty in H. congruence. }
  destruct (is_char 91 c) eqn:A;
    [|intros H _; exact (has_S_scan_constant _ _ _ _ H)].
  apply is_char_code in A.
  rewrite (has_char_skip 83 c s') by (rewrite A; discriminate).
  rewrite <- (has_S_skip_ws s').
  destruct room as [|inner]; [discriminate|].
  destruct (skip_ws s') as [|q r1]; [discriminate|].
  destruct (is_char 93 q) eqn:C.
  - apply is_char_code in C. intros H _; inversion H; subst.
    apply has_char_skip. rewrite C. discriminate.
  - intros H Hv. apply JSONArray_nonempty in H. congruence.
Qed.

Lemma decode_without_S (interp : interpreter) (text : string) (v : json)
      (rest : string) :
  decode interp text = Scanned v rest ->
  nonempty_container v = false ->
  has_char 83 text = false.
Proof.
  unfold decode.
  destruct (scan_once _ _ _ (skip_ws text)) as [obj r| | |e] eqn:E;
    try discriminate.
  destruct (skip_ws r) eqn:W; [|discriminate].
  intros H Hv; inversion H; subst.
  rewrite <- has_S_skip_ws, (has_S_scan_once _ _ _ _ _ _ E Hv), <- has_S_skip_ws, W.
  reflexivity.
Qed.

(** X15.  A document the method returns is never one Python counts as false:
    it is a non-empty [dict], [list] or [str], because the text it was parsed
    from contains [StackedInfo].  A caller's test [if not metadata] therefore
    fires for the result [None] only. *)
Theorem returned_document_nonempty
        (interp : interpreter) (fs : filesystem) (reader : TIFFAstroReader) (document : json) :
  fst (extract_astronomical_metadata interp fs reader) = Ret (Some document) ->
  nonempty_container document = true.
Proof.
  rewrite result_of_extraction. intros Hr.
  destruct (fs (filename reader)) as [bytes|]; [|discriminate].
  unfold extraction_result in Hr.
  destruct (header_of bytes) as [[little first]|]; [|discriminate].
  unfold after_header in Hr.
  destruct (exif_pointer little bytes first) as [off|]; [|discriminate].
  destruct (off =? 0); [discriminate|].
  destruct (origin_json_text little bytes off) as [text|] eqn:T; [|discriminate].
  apply origin_json_text_looks_right in T.
  unfold looks_like_origin_json in T. apply andb_true_iff in T as [T _].
  apply stacked_info_has_S in T.
  unfold loads_returned, loads_outcome in Hr.
  destruct (decode interp text) as [v rest| | |[]] eqn:D; try discriminate.
  inversion Hr; subst.
  destruct (nonempty_container document) eqn:Hn; [reflexivity|].
  rewrite (decode_without_S _ _ _ _ D Hn) in T. discriminate.
Qed.

Lemma returned_document_nonempty_witness :
  nonempty_container (JArray [JString (pystr_of "StackedInfo{")]) = true.
Proof.
  apply (returned_document_nonempty cpython (holding (encode false array_payload_tiff))
           any_reader).
  vm_compute. reflexivity.
Defined.

(** ** Splitting argument lists *)

Lemma lstrip_no_space (c : N) (rest : pystr) :
  is_space c = false -> lstrip (c :: rest) = c :: rest.
Proof. intros H. cbn [lstrip]. now rewrite H. Qed.

Lemma lstrip_head (x : pystr) (c : N) (rest : pystr) :
  lstrip x = c :: rest -> is_space c = false.
Proof.
  induction x as [|a x IH]; [discriminate|]. cbn [lstrip].
  destruct (is_space a) eqn:E; [exact IH|].
  intros H; inversion H; subst. exact E.
Qed.

Lemma lstrip_suffix (x : pystr) : exists u, x = u ++ lstrip x.
Proof.
  induction x as [|a x [u IH]]; [now exists []|]. cbn [lstrip].
  destruct (is_space a); [|now exists []].
  exists (a :: u). cbn [app]. now rewrite <- IH.
Qed.

Lemma in_lstrip (c : N) (x : pystr) : In c (lstrip x) -> In c x.
Proof.
  destruct (lstrip_suffix x) as [u Hu]. intros H. rewrite Hu.
  apply in_or_app. now right.
Qed.

Lemma in_strip (c : N) (x : pystr) : In c (strip x) -> In c x.
Proof.
  unfold strip, rstrip. intros H.
  apply in_rev, in_lstrip, in_rev in H. now apply in_lstrip.
Qed.

Lemma strip_no_spaces (x : pystr) :
  forallb (fun c => negb (is_space c)) x = true -> strip x = x.
Proof.
  intros H. rewrite forallb_forall in H.
  assert (L : forall y, (forall c, In c y -> negb (is_space c) = true) ->
                        lstrip y = y).
  { intros [|c y] Hy; [reflexivity|]. apply lstrip_no_space.
    apply negb_true_iff, Hy. now left. }
  unfold strip, rstrip. rewrite (L x H), L, rev_involutive; [reflexivity|].
  intros c Hc. apply H. now apply in_rev.
Qed.

Lemma strip_strip (x : pystr) : strip (strip x) = strip x.
Proof.
  unfold strip, rstrip.
  destruct (lstrip (rev (lstrip x))) as [|c w] eqn:W; [reflexivity|].
  pose proof (lstrip_head _ _ _ W) as Hc.
  destruct (lstrip_suffix (rev (lstrip x))) as [u Hu]. rewrite W in Hu.
  assert (Hz : lstrip x = rev (c :: w) ++ rev u).
  { rewrite <- rev_app_distr, <- Hu. now rewrite rev_involutive. }
  assert (Hhead : lstrip (rev (c :: w)) = rev (c :: w)).
  { destruct (rev (c :: w)) as [|a z] eqn:R.
    - apply (f_equal (@List.length N)) in R. rewrite length_rev in R. discriminate.
    - apply lstrip_no_space. rewrite ?R in Hz. cbn [app] in Hz.
      exact (lstrip_head _ _ _ Hz). }
  rewrite Hhead, rev_involutive, (lstrip_no_space c w Hc). reflexivity.
Qed.

Lemma join_commas_snoc (args : list pystr) (a : pystr) :
  join_commas (args ++ [a]) = List.concat (map (fun x => x ++ [44]) args) ++ a.
Proof.
  induction args as [|x rest IH]; [reflexivity|].
  cbn [app map List.concat]. rewrite <- !app_assoc, <- IH.
  destruct rest; reflexivity.
Qed.

Lemma parse_arguments_loop_join (chars : pystr) :
  forall args current_arg paren_depth,
    forallb (fun c => negb (is_space c)) chars = true ->
    forallb (fun c => negb (is_space c)) current_arg = true ->
    last chars 0 <> 44 ->
    current_arg <> [] \/ chars <> [] ->
    join_commas (parse_arguments_loop args current_arg paren_depth chars)
    = List.concat (map (fun x => x ++ [44]) args) ++ current_arg ++ chars.
Proof.
  induction chars as [|c rest IH]; intros args cur depth Hs Hc Hl Hne.
  - cbn [parse_arguments_loop]. destruct cur as [|a cur]; [destruct Hne; congruence|].
    rewrite join_commas_snoc, strip_no_spaces, app_nil_r by exact Hc. reflexivity.
  - cbn [forallb] in Hs. apply andb_true_iff in Hs as [Hc0 Hs].
    assert (Hl' : last rest 0 <> 44).
    { destruct rest; [discriminate|exact Hl]. }
    cbn [parse_arguments_loop].
    destruct ((c =? 44) && (depth =? 0)%Z) eqn:E.
    + apply andb_true_iff in E as [E _]. apply N.eqb_eq in E. subst c.
      rewrite IH; try assumption; try reflexivity.
      * rewrite strip_no_spaces by exact Hc.
        rewrite map_app, concat_app. cbn [map List.concat].
        now rewrite app_nil_r, <- !app_assoc.
      * right. intros ->. now apply Hl.
    + rewrite IH; try assumption.
      * now rewrite <- !app_assoc.
      * rewrite forallb_app, Hc. cbn [forallb]. now rewrite Hc0.
      * left. now destruct cur.
Qed.

(** X16.  Splitting and joining are inverse on text without white space:
    for a non-empty argument text that holds no white space and does not end
    in a comma, joining the arguments [parse_arguments] returns with commas
    gives the text back. *)
Theorem parse_arguments_join (args_str : pystr) :
  args_str <> [] ->
  forallb (fun c => negb (is_space c)) args_str = true ->
  last args_str 0 <> 44 ->
  join_commas (parse_arguments args_str) = args_str.
Proof.
  intros Hne Hs Hl. destruct args_str as [|c rest]; [congruence|].
  unfold parse_arguments.
  rewrite parse_arguments_loop_join; try assumption; try reflexivity.
  now right.
Qed.

Lemma parse_arguments_join_witness :
  join_commas (parse_arguments (pystr_of "h,f(a,g(b,c)),,d"))
  = pystr_of "h,f(a,g(b,c)),,d".
Proof.
  apply parse_arguments_join; [discriminate | reflexivity | discriminate].
Defined.

Lemma parse_arguments_loop_invariant (P : pystr -> Prop) (chars : pystr) :
  (forall x, P (strip x)) ->
  forall args current_arg paren_depth,
    Forall P args ->
    Forall P (parse_arguments_loop args current_arg paren_depth chars).
Proof.
  intros HP. induction chars as [|c rest IH]; intros args cur depth Ha.
  - cbn [parse_arguments_loop]. destruct cur; [exact Ha|].
    apply Forall_app. split; [exact Ha|]. constructor; [apply HP|constructor].
  - cbn [parse_arguments_loop]. destruct ((c =? 44) && (depth =? 0)%Z).
    + apply IH. apply Forall_app. split; [exact Ha|].
      constructor; [apply HP|constructor].
    + apply IH. exact Ha.
Qed.

(** X19.  Every argument [parse_arguments] returns is stripped: stripping it
    again changes nothing, so it neither starts nor ends with white
    space. *)
Theorem parse_arguments_stripped (args_str : pystr) :
  Forall (fun a => strip a = a) (parse_arguments args_str).
Proof.
  destruct args_str as [|c rest]; [constructor|].
  unfold parse_arguments.
  apply parse_arguments_loop_invariant; [apply strip_strip|constructor].
Qed.

Lemma parse_arguments_loop_commas (chars : pystr) :
  forall args current_arg,
    forallb (fun c => negb (c =? 40)) chars = true ->
    ~ In 44 current_arg ->
    Forall (fun a => ~ In 44 a) args ->
    Forall (fun a => ~ In 44 a) (parse_arguments_loop args current_arg 0%Z chars).
Proof.
  induction chars as [|c rest IH]; intros args cur Hp Hc Ha.
  - cbn [parse_arguments_loop]. destruct cur as [|a cur]; [exact Ha|].
    apply Forall_app. split; [exact Ha|].
    constructor; [|constructor]. intros H. now apply in_strip in H.
  - cbn [forallb] in Hp. apply andb_true_iff in Hp as [Hc0 Hp].
    apply negb_true_iff in Hc0.
    cbn [parse_arguments_loop]. rewrite Hc0. cbn [Z.eqb]. rewrite andb_true_r.
    destruct (N.eqb_spec c 44) as [->|Hne].
    + apply IH; [exact Hp | intros [] |].
      apply Forall_app. split; [exact Ha|].
      constructor; [|constructor]. intros H. now apply in_strip in H.
    + replace (if c =? 41 then Z.max 0 (0 - 1) else 0%Z) with 0%Z
        by (destruct (c =? 41); reflexivity).
      apply IH; [exact Hp | | exact Ha].
      intros H. apply in_app_or in H as [H|[H|[]]]; [now apply Hc|congruence].
Qed.

(** X17.  Without an opening parenthesis in the text every comma splits:
    no argument returned holds a comma.  Closing parentheses do not change
    this, since the depth is not allowed to fall below zero. *)
Theorem parse_arguments_splits_every_comma (args_str : pystr) :
  forallb (fun c => negb (c =? 40)) args_str = true ->
  Forall (fun a => ~ In 44 a) (parse_arguments args_str).
Proof.
  intros Hp. destruct args_str as [|c rest]; [constructor|].
  unfold parse_arguments.
  apply parse_arguments_loop_commas; [exact Hp | intros [] | constructor].
Qed.

Lemma parse_arguments_splits_every_comma_witness :
  Forall (fun a => ~ In 44 a) (parse_arguments (pystr_of "a),b)),c")).
Proof.
  apply parse_arguments_splits_every_comma. reflexivity.
Defined.

Lemma parse_arguments_loop_segment (segment : pystr) :
  forall args current_arg paren_depth rest,
    forallb (fun c => negb ((c =? 40) || (c =? 41))) segment = true ->
    paren_depth <> 0%Z \/ forallb (fun c => negb (c =? 44)) segment = true ->
    parse_arguments_loop args current_arg paren_depth (segment ++ rest)
    = parse_arguments_loop args (current_arg ++ segment) paren_depth rest.
Proof.
  induction segment as [|c seg IH]; intros args cur depth rest Hp Hc.
  - now rewrite app_nil_r.
  - cbn [forallb] in Hp. apply andb_true_iff in Hp as [Hc0 Hp].
    apply negb_true_iff, orb_false_iff in Hc0 as [Ho Hcl].
    cbn [app parse_arguments_loop]. rewrite Ho, Hcl.
    replace ((c =? 44) && (depth =? 0)%Z) with false.
    + rewrite IH; [now rewrite <- app_assoc | exact Hp |].
      destruct Hc as [Hd|Hc]; [now left|right].
      cbn [forallb] in Hc. now apply andb_true_iff in Hc as [_ Hc].
    + symmetry. apply andb_false_iff. destruct Hc as [Hd|Hc].
      * right. now apply Z.eqb_neq.
      * left. cbn [forallb] in Hc. apply andb_true_iff in Hc as [Hc _].
        now apply negb_true_iff.
Qed.

(** X18.  Commas between parentheses do not split: a call text made of a
    name without comma or parenthesis, an opening parenthesis, an inner text
    without parentheses (commas allowed) and a closing parenthesis comes back
    as one argument, the whole text stripped. *)
Theorem parse_arguments_keeps_call (name inner : pystr) :
  forallb (fun c => negb ((c =? 40) || (c =? 41))) name = true ->
  forallb (fun c => negb (c =? 44)) name = true ->
  forallb (fun c => negb ((c =? 40) || (c =? 41))) inner = true ->
  parse_arguments (name ++ 40 :: inner ++ [41])
  = [strip (name ++ 40 :: inner ++ [41])].
Proof.
  intros Hn Hc Hi.
  assert (E : parse_arguments (name ++ 40 :: inner ++ [41])
              = parse_arguments_loop [] [] 0%Z (name ++ 40 :: inner ++ [41]))
    by (destruct name; reflexivity).
  rewrite E, parse_arguments_loop_segment by (assumption || now right).
  cbn [app parse_arguments_loop N.eqb Pos.eqb andb].
  rewrite parse_arguments_loop_segment by (assumption || (left; discriminate)).
  cbn [parse_arguments_loop N.eqb Pos.eqb andb].
  replace ((name ++ [40]) ++ inner) with (name ++ 40 :: inner)
    by (now rewrite <- app_assoc).
  replace ((name ++ 40 :: inner) ++ [41]) with (name ++ 40 :: inner ++ [41])
    by (now rewrite <- app_assoc).
  destruct (name ++ 40 :: inner ++ [41]) eqn:W; [|reflexivity].
  destruct name; discriminate.
Qed.

Lemma parse_arguments_keeps_call_witness :
  parse_arguments (pystr_of "max" ++ 40 :: pystr_of "a, b" ++ [41])
  = [strip (pystr_of "max" ++ 40 :: pystr_of "a, b" ++ [41])].
Proof.
  apply parse_arguments_keeps_call; reflexivity.
Defined.

(** ** Offsets past the end of the file *)

Lemma slice_empty (bytes : list byte) (offset count : N) :
  len bytes <= offset \/ count = 0 -> slice bytes offset count = [].
Proof.
  intros H. pose proof (len_slice bytes offset count) as L.
  destruct (slice bytes offset count) as [|b rest]; [reflexivity|].
  unfold len in L at 1. cbn [List.length] in L. lia.
Qed.

(** X20.  An out-of-line read at or past the end of the file, or of 0 bytes,
    returns no bytes and leaves the world as it was; an application-data
    entry with such a value decodes to the empty text and is passed over.
    Nothing is raised for it. *)
Theorem dangling_payload_not_usable (w : world) (e : DirectoryEntry) :
  len (bytes_of w) <= value_or_offset e \/ count e = 0 ->
  read_data_at_offset (value_or_offset e) (count e) w = (Ret [], w)
  /\ origin_text (bytes_of w) e = None.
Proof.
  intros H. rewrite read_data_at_offset_run. unfold origin_text, payload_of.
  rewrite (slice_empty (bytes_of w) _ _ H). split; [reflexivity|].
  destruct ((tag e =? 37500) && (field_type e =? 7)); reflexivity.
Qed.

Lemma dangling_payload_not_usable_witness :
  read_data_at_offset 4096 37 (open_at_start (encode true dangling_payload_tiff))
  = (Ret [], open_at_start (encode true dangling_payload_tiff))
  /\ origin_text (encode true dangling_payload_tiff) (mkentry 37500 7 37 4096) = None.
Proof.
  apply (dangling_payload_not_usable
           (open_at_start (encode true dangling_payload_tiff))
           (mkentry 37500 7 37 4096)).
  left. vm_compute. discriminate.
Defined.

Lemma directory_past_end (little : bool) (bytes : list byte) (offset : N) :
  len bytes < offset + 2 ->
  entry_count little bytes offset = 0 /\ directory_at little bytes offset = [].
Proof.
  intros H. unfold directory_at, entry_count.
  rewrite uint_at_short by (lia || exact H). split; reflexivity.
Qed.

(** X21.  A directory offset that leaves no room for the two-byte entry
    count before the end of the file is read as an empty directory: when the
    first IFD offset or the EXIF pointer points there, the method returns
    [None]. *)
Theorem dangling_directory_returns_none
        (interp : interpreter) (fs : filesystem) (reader : TIFFAstroReader) (bytes : list byte)
        (little : bool) (first_ifd_offset : N) :
  fs (filename reader) = Some bytes ->
  header_of bytes = Some (little, first_ifd_offset) ->
  len bytes < first_ifd_offset + 2
  \/ (exists exif_offset,
         exif_pointer little bytes first_ifd_offset = Some exif_offset
         /\ len bytes < exif_offset + 2) ->
  fst (extract_astronomical_metadata interp fs reader) = Ret None.
Proof.
  intros Hfs Hh H. rewrite result_of_extraction, Hfs.
  unfold extraction_result, after_header. rewrite Hh.
  destruct H as [H|[exif_offset [Hp H]]].
  - unfold exif_pointer.
    destruct (directory_past_end little bytes first_ifd_offset H) as [-> ->].
    destruct (first_ifd_offset =? 0); reflexivity.
  - rewrite Hp. unfold origin_json_text.
    destruct (directory_past_end little bytes exif_offset H) as [-> ->].
    destruct (exif_offset =? 0); reflexivity.
Qed.

Lemma dangling_directory_returns_none_witness :
  fst (extract_astronomical_metadata cpython (holding dangling_ifd_file) any_reader) = Ret None.
Proof.
  apply (dangling_directory_returns_none cpython (holding dangling_ifd_file) any_reader
           dangling_ifd_file true 4096); [reflexivity | reflexivity |].
  left. vm_compute. reflexivity.
Defined.
